(** * Graph: adjacency-list graph with BFS, DFS and shortest path

    A shallow embedding of [src/graph.py] (class [Graph]) and the proofs of
    its specification.

    Modelling conventions.
    - A vertex is a value of a type [V] with decidable equality that can be
      hashed ([Countable]).  Python's [None] can be a vertex like any other
      value: [is_None] tells whether a vertex is that object ([PyNone]).  A
      variable of the code that holds either [None] or a vertex that is not
      [None] is an [option V]: the optional [target] of [bfs] and [dfs], where
      the code tests [target is not None], and [current] and the entries of
      [parent] in [bfs_path], which hold [py_value v] for a vertex [v], so a
      vertex that is [None] is there the same value as the marker [None].
    - [self.adjacency_list] is a Python [dict], which iterates in insertion
      order: it is an association list [list (V * list V)], new keys are
      appended at the end, and the API keeps its keys distinct ([wf_graph]).
    - A method that mutates [self] is a function from the graph before the
      call to the graph after it.
    - [visited] is a [gset V], the parent map of [bfs_path] a
      [gmap V (option V)], a [deque] is a list whose head is the left end, and
      the stack of [dfs] is a list whose head is the top of the stack.
    - A [while] loop runs on fuel.  A traversal is an [outcome]: it returns a
      value, raises [KeyError] (a subscript on a missing key), or runs out of
      fuel.  The public functions start their loops with [loop_bound g], and
      the theorems below prove that they return, so neither of the other two
      outcomes happens on a graph built through the API.  Interpreter limits
      (recursion depth, memory) are not modelled. *)

From stdpp Require Import gmap strings list relations.

Set Warnings "-clear-no-such-hyp".

Inductive outcome (A : Type) : Type :=
  | Returns (a : A)
  | KeyError
  | OutOfFuel.
Arguments Returns {A} a.
Arguments KeyError {A}.
Arguments OutOfFuel {A}.

Definition outcome_bind {A B} (f : A → outcome B) (m : outcome A) : outcome B :=
  match m with
  | Returns a => f a
  | KeyError => KeyError
  | OutOfFuel => OutOfFuel
  end.

#[global] Instance outcome_mbind : MBind outcome := @outcome_bind.

(** Reduces a bind whose first computation is a known outcome. *)
Ltac outcome_simpl := cbn [mbind outcome_mbind outcome_bind].

(** Which values of the vertex type are Python's [None]. *)
Class PyNone (V : Type) := is_None : V → bool.

Section graph.
Context {V : Type} `{Countable V} `{!PyNone V}.

(** ** The adjacency store *)

Local Notation "'dict'" := (list (V * list V)) (only parsing).

(** [d.get(k)]: the value of the first (and, in a dict, only) entry of [k]. *)
Fixpoint dict_get (d : dict) (k : V) : option (list V) :=
  match d with
  | [] => None
  | (k', ns) :: d' => if decide (k = k') then Some ns else dict_get d' k
  end.

(** [k in d] *)
Definition dict_in (k : V) (d : dict) : bool :=
  match dict_get d k with Some _ => true | None => false end.

(** [d[k]] as a subscript that raises on a missing key. *)
Definition subscript (d : dict) (k : V) : outcome (list V) :=
  match dict_get d k with Some ns => Returns ns | None => KeyError end.

(** The in-place update [f(d[k])] of the list stored at [k]. *)
Fixpoint dict_alter (f : list V → list V) (k : V) (d : dict) : dict :=
  match d with
  | [] => []
  | (k', ns) :: d' =>
      if decide (k = k') then (k', f ns) :: d' else (k', ns) :: dict_alter f k d'
  end.

(** [del d[k]] *)
Fixpoint dict_del (k : V) (d : dict) : dict :=
  match d with
  | [] => []
  | (k', ns) :: d' => if decide (k = k') then d' else (k', ns) :: dict_del k d'
  end.

(** [l.remove(x)]: removes the first occurrence; the callers check [x in l]
    first, so the [ValueError] of a missing [x] never arises. *)
Fixpoint list_remove (x : V) (l : list V) : list V :=
  match l with
  | [] => []
  | y :: l' => if decide (x = y) then l' else y :: list_remove x l'
  end.

Record Graph : Type := {
  adjacency_list : dict;
  directed : bool
}.

(** [Graph(directed)] *)
Definition empty_graph (d : bool) : Graph :=
  {| adjacency_list := []; directed := d |}.

Definition with_adjacency (g : Graph) (d : dict) : Graph :=
  {| adjacency_list := d; directed := directed g |}.

(** ** Mutation API *)

Definition add_vertex (g : Graph) (vertex : V) : Graph :=
  if dict_in vertex (adjacency_list g) then g
  else with_adjacency g (adjacency_list g ++ [(vertex, [])]).

(** [if x not in d[k]: d[k].append(x)].  In [add_edge] the key [k] has just
    been registered, so the subscript finds it ([add_edge_subscripts]). *)
Definition append_if_absent (x k : V) (d : dict) : dict :=
  match dict_get d k with
  | Some ns => if decide (x ∈ ns) then d else dict_alter (λ l, l ++ [x]) k d
  | None => d
  end.

Definition add_edge (g : Graph) (vertex1 vertex2 : V) : Graph :=
  let g := add_vertex g vertex1 in
  let g := add_vertex g vertex2 in
  let d := append_if_absent vertex2 vertex1 (adjacency_list g) in
  let d := if directed g then d else append_if_absent vertex1 vertex2 d in
  with_adjacency g d.

(** [if k in d and x in d[k]: d[k].remove(x)] *)
Definition remove_if_present (x k : V) (d : dict) : dict :=
  match dict_get d k with
  | Some ns => if decide (x ∈ ns) then dict_alter (list_remove x) k d else d
  | None => d
  end.

Definition remove_edge (g : Graph) (vertex1 vertex2 : V) : Graph :=
  let d := remove_if_present vertex2 vertex1 (adjacency_list g) in
  let d := if directed g then d else remove_if_present vertex1 vertex2 d in
  with_adjacency g d.

(** The loop [for v in self.adjacency_list] visits every entry once and
    rewrites only the list of the entry it is at. *)
Definition purge (vertex : V) (d : dict) : dict :=
  (λ e : V * list V,
     (e.1, if decide (vertex ∈ e.2) then list_remove vertex e.2 else e.2)) <$> d.

Definition remove_vertex (g : Graph) (vertex : V) : Graph :=
  if dict_in vertex (adjacency_list g)
  then with_adjacency g (dict_del vertex (purge vertex (adjacency_list g)))
  else g.

(** ** Queries *)

Definition get_neighbors (g : Graph) (vertex : V) : list V :=
  default [] (dict_get (adjacency_list g) vertex).

Definition has_vertex (g : Graph) (vertex : V) : bool :=
  dict_in vertex (adjacency_list g).

Definition has_edge (g : Graph) (vertex1 vertex2 : V) : bool :=
  match dict_get (adjacency_list g) vertex1 with
  | Some ns => bool_decide (vertex2 ∈ ns)
  | None => false
  end.

Definition get_vertices (g : Graph) : list V := (adjacency_list g).*1.

(** The body of the inner loop of [get_edges]. *)
Definition emit_edge (dir : bool) (vertex : V) (edges : list (V * V)) (neighbor : V)
    : list (V * V) :=
  if dir then edges ++ [(vertex, neighbor)]
  else if decide ((neighbor, vertex) ∈ edges) then edges
       else edges ++ [(vertex, neighbor)].

(** The outer loop takes each key with the list stored at it, the inner
    loop each neighbour of that list. *)
Definition get_edges (g : Graph) : list (V * V) :=
  foldl (λ edges e, foldl (emit_edge (directed g) e.1) edges e.2)
        [] (adjacency_list g).

(** ** Traversals *)

(** Enough fuel for every loop below: one more than the number of vertices
    plus the number of adjacency entries. *)
Definition loop_bound (g : Graph) : nat :=
  S (length (adjacency_list g) + sum_list (length ∘ snd <$> adjacency_list g)).

(** [for neighbor in ns: if neighbor not in visited: queue.append(neighbor)] *)
Fixpoint enqueue_unvisited (visited : gset V) (ns : list V) (queue : list V) : list V :=
  match ns with
  | [] => queue
  | neighbor :: ns' =>
      if decide (neighbor ∈ visited) then enqueue_unvisited visited ns' queue
      else enqueue_unvisited visited ns' (queue ++ [neighbor])
  end.

Fixpoint bfs_loop (fuel : nat) (g : Graph) (target : option V)
    (visited : gset V) (queue result : list V) {struct fuel} : outcome (list V) :=
  match queue with
  | [] => Returns result
  | vertex :: queue =>
      match fuel with
      | 0 => OutOfFuel
      | S fuel =>
          if decide (vertex ∈ visited) then bfs_loop fuel g target visited queue result
          else
            let visited := {[vertex]} ∪ visited in
            let result := result ++ [vertex] in
            if decide (target = Some vertex) then Returns result
            else
              ns ← subscript (adjacency_list g) vertex;
              bfs_loop fuel g target visited (enqueue_unvisited visited ns queue) result
      end
  end.

Definition bfs (g : Graph) (start_vertex : V) (target : option V) : outcome (list V) :=
  if dict_in start_vertex (adjacency_list g)
  then bfs_loop (loop_bound g) g target ∅ [start_vertex] []
  else Returns [].

(** [for neighbor in ns: if neighbor not in visited: stack.append(neighbor)];
    [dfs] runs it on [reversed(self.adjacency_list[vertex])]. *)
Fixpoint push_unvisited (visited : gset V) (ns : list V) (stack : list V) : list V :=
  match ns with
  | [] => stack
  | neighbor :: ns' =>
      if decide (neighbor ∈ visited) then push_unvisited visited ns' stack
      else push_unvisited visited ns' (neighbor :: stack)
  end.

Fixpoint dfs_loop (fuel : nat) (g : Graph) (target : option V)
    (visited : gset V) (stack result : list V) {struct fuel} : outcome (list V) :=
  match stack with
  | [] => Returns result
  | vertex :: stack =>
      match fuel with
      | 0 => OutOfFuel
      | S fuel =>
          if decide (vertex ∈ visited) then dfs_loop fuel g target visited stack result
          else
            let visited := {[vertex]} ∪ visited in
            let result := result ++ [vertex] in
            if decide (target = Some vertex) then Returns result
            else
              ns ← subscript (adjacency_list g) vertex;
              dfs_loop fuel g target visited
                       (push_unvisited visited (reverse ns) stack) result
      end
  end.

Definition dfs (g : Graph) (start_vertex : V) (target : option V) : outcome (list V) :=
  if dict_in start_vertex (adjacency_list g)
  then dfs_loop (loop_bound g) g target ∅ [start_vertex] []
  else Returns [].

(** The state shared by the calls of [dfs_helper]: [visited] and [result]. *)
Local Notation "'dfs_state'" := (gset V * list V)%type (only parsing).

(** The loop of [dfs_helper] over the neighbours, given the recursive call. *)
Fixpoint dfs_visit_all (helper : V → dfs_state → outcome (bool * dfs_state))
    (ns : list V) (st : dfs_state) : outcome (bool * dfs_state) :=
  match ns with
  | [] => Returns (false, st)
  | neighbor :: ns' =>
      if decide (neighbor ∈ st.1) then dfs_visit_all helper ns' st
      else
        '(found, st) ← helper neighbor st;
        if found : bool then Returns (true, st) else dfs_visit_all helper ns' st
  end.

(** [fuel] bounds the depth of the recursion. *)
Fixpoint dfs_helper (fuel : nat) (g : Graph) (target : option V)
    (vertex : V) (st : dfs_state) {struct fuel} : outcome (bool * dfs_state) :=
  match fuel with
  | 0 => OutOfFuel
  | S fuel =>
      if decide (vertex ∈ st.1) then Returns (false, st)
      else
        let st := ({[vertex]} ∪ st.1, st.2 ++ [vertex]) in
        if decide (target = Some vertex) then Returns (true, st)
        else
          ns ← subscript (adjacency_list g) vertex;
          dfs_visit_all (dfs_helper fuel g target) ns st
  end.

Definition dfs_recursive (g : Graph) (start_vertex : V) (target : option V)
    : outcome (list V) :=
  if dict_in start_vertex (adjacency_list g)
  then '(_, (_, result)) ← dfs_helper (loop_bound g) g target start_vertex (∅, []);
       Returns result
  else Returns [].

(** [while current is not None: path.append(current); current = parent[current]].
    [current] and the entries of [parent] are [None] when they hold the
    object [None], be it the marker stored for the start vertex or a vertex
    that is [None] ([py_value]), and [Some c] for any other vertex [c]. *)
Fixpoint walk_parents (fuel : nat) (parent : gmap V (option V))
    (current : option V) (path : list V) {struct fuel} : outcome (list V) :=
  match current with
  | None => Returns path
  | Some c =>
      match fuel with
      | 0 => OutOfFuel
      | S fuel =>
          match parent !! c with
          | None => KeyError
          | Some next => walk_parents fuel parent next (path ++ [c])
          end
      end
  end.

(** A vertex as a variable of [bfs_path] holds it: [None] when the vertex is
    the object [None], and the vertex otherwise. *)
Definition py_value (v : V) : option V := if is_None v then None else Some v.

(** The state of the search of [bfs_path]: [visited], [queue], [parent]. *)
Local Notation "'search'" := (gset V * list V * gmap V (option V))%type (only parsing).

(** The loop of [bfs_path] over the neighbours of [vertex]: it returns the
    path in [inl] when it reaches [target], the new state in [inr] when the
    neighbours are exhausted.  [parent[neighbor] = vertex] stores the vertex
    itself and [current = neighbor] starts the climb at the vertex itself, so
    a vertex that is [None] ends the climb like the marker of the start
    vertex does.  The climb cannot take more steps than the map has
    entries. *)
Fixpoint bfs_path_scan (target vertex : V) (ns : list V) (st : search)
    : outcome (list V + search) :=
  match ns with
  | [] => Returns (inr st)
  | neighbor :: ns' =>
      if decide (neighbor ∈ st.1.1) then bfs_path_scan target vertex ns' st
      else
        let visited := {[neighbor]} ∪ st.1.1 in
        let parent := <[neighbor := py_value vertex]> st.2 in
        if decide (neighbor = target) then
          path ← walk_parents (size parent) parent (py_value neighbor) [];
          Returns (inl (reverse path))
        else bfs_path_scan target vertex ns' (visited, st.1.2 ++ [neighbor], parent)
  end.

Fixpoint bfs_path_loop (fuel : nat) (g : Graph) (target : V) (st : search)
    {struct fuel} : outcome (option (list V)) :=
  match st.1.2 with
  | [] => Returns None
  | vertex :: queue =>
      match fuel with
      | 0 => OutOfFuel
      | S fuel =>
          ns ← subscript (adjacency_list g) vertex;
          r ← bfs_path_scan target vertex ns (st.1.1, queue, st.2);
          match r with
          | inl path => Returns (Some path)
          | inr st => bfs_path_loop fuel g target st
          end
      end
  end.

Definition bfs_path (g : Graph) (start_vertex target : V) : outcome (option (list V)) :=
  if negb (dict_in start_vertex (adjacency_list g))
     || negb (dict_in target (adjacency_list g))
  then Returns None
  else if decide (start_vertex = target) then Returns (Some [start_vertex])
  else bfs_path_loop (loop_bound g) g target
         ({[start_vertex]}, [start_vertex], {[start_vertex := None]}).

(** ** Graphs built through the API *)

(** A graph object starts empty and changes only through the four mutating
    methods. *)
Inductive Built : Graph → Prop :=
  | Built_empty d : Built (empty_graph d)
  | Built_add_vertex g v : Built g → Built (add_vertex g v)
  | Built_add_edge g u v : Built g → Built (add_edge g u v)
  | Built_remove_edge g u v : Built g → Built (remove_edge g u v)
  | Built_remove_vertex g v : Built g → Built (remove_vertex g v).

(** The invariants of the data model: distinct keys, no duplicate neighbour,
    no dangling neighbour, and symmetry when the graph is undirected. *)
Record wf_graph (g : Graph) : Prop := {
  wf_keys : NoDup (get_vertices g);
  wf_nodup : ∀ u, NoDup (get_neighbors g u);
  wf_closed : ∀ u v, v ∈ get_neighbors g u → has_vertex g v = true;
  wf_sym : directed g = false →
           ∀ u v, v ∈ get_neighbors g u → u ∈ get_neighbors g v
}.

(** The edge relation of a graph, and paths as lists of vertices. *)
Definition edge (g : Graph) (u v : V) : Prop := has_edge g u v = true.

Fixpoint chain (g : Graph) (p : list V) : Prop :=
  match p with
  | u :: (v :: _) as p' => edge g u v ∧ chain g p'
  | _ => True
  end.

Definition is_path (g : Graph) (start target : V) (p : list V) : Prop :=
  head p = Some start ∧ last p = Some target ∧ chain g p.

(** ** Measures and loop invariants used by the proofs *)

(** The adjacency entries of the vertices that are not visited yet: what the
    loops of [bfs] and [dfs] can still put on the queue or stack. *)
Definition unvisited_degree (visited : gset V) (d : dict) : nat :=
  sum_list ((λ e, if decide (e.1 ∈ visited) then 0 else length e.2) <$> d).

(** The vertices that are not visited yet: they bound the depth of the
    recursion of [dfs_recursive] and the queue of [bfs_path]. *)
Definition unvisited_count (visited : gset V) (d : dict) : nat :=
  length (filter (λ k, k ∉ visited) d.*1).

(** The invariant of the loop of [bfs] when no target is given. *)
Record bfs_inv (g : Graph) (start : V) (visited : gset V)
    (queue result : list V) : Prop := {
  bfs_result_nodup : NoDup result;
  bfs_result_visited : ∀ v, v ∈ result ↔ v ∈ visited;
  bfs_visited_reach : ∀ v, v ∈ visited → rtc (edge g) start v;
  bfs_queue_reach : ∀ v, v ∈ queue → rtc (edge g) start v;
  bfs_frontier : ∀ u v, u ∈ visited → edge g u v → v ∈ visited ∨ v ∈ queue;
  bfs_start : start ∈ visited ∨ start ∈ queue
}.

(** The vertex type read as one that has no [None] among its values: with it
    [bfs_path] is the search in which no vertex is mistaken for the marker. *)
Definition no_None : PyNone V := λ _, false.

(** What a variable that holds the marker or a vertex becomes when a vertex
    that is [None] is taken for the marker. *)
Definition collapse_None (o : option V) : option V := o ≫= py_value.

(** The part of a climb before its first vertex that is [None]. *)
Fixpoint cut_at_None (l : list V) : list V :=
  match l with
  | [] => []
  | v :: l' => if is_None v then [] else v :: cut_at_None l'
  end.

(** The parent links of [bfs_path] form a tree rooted at [start]; [depth]
    is the level at which the search reached each visited vertex. *)
Record tree_inv (g : Graph) (start : V) (depth : V → nat)
    (visited : gset V) (parent : gmap V (option V)) : Prop := {
  tree_root : parent !! start = Some None;
  tree_root_visited : start ∈ visited;
  tree_root_depth : depth start = 0;
  tree_parent : ∀ v, v ∈ visited → v ≠ start →
    ∃ p, parent !! v = Some (Some p) ∧ p ∈ visited ∧ edge g p v ∧
         depth v = S (depth p);
  tree_unvisited : ∀ v, v ∉ visited → parent !! v = None;
  tree_depth_bound : ∀ v, v ∈ visited → depth v < size parent;
  tree_vertices : ∀ v, v ∈ visited → has_vertex g v = true
}.

Definition set_depth (depth : V → nat) (v : V) (k : nat) : V → nat :=
  λ x, if decide (x = v) then k else depth x.

(** The invariant of the inner loop of [bfs_path], which scans the
    neighbours [todo] of the dequeued [vertex]. *)
Record scan_inv (g : Graph) (start target : V) (depth : V → nat)
    (vertex : V) (todo : list V)
    (visited : gset V) (queue : list V) (parent : gmap V (option V)) : Prop := {
  scan_tree : tree_inv g start depth visited parent;
  scan_target : target ∉ visited;
  scan_vertex : vertex ∈ visited;
  scan_queue : ∀ v, v ∈ queue → v ∈ visited;
  scan_todo : ∀ w, w ∈ todo → edge g vertex w;
  scan_done : ∀ w, edge g vertex w → w ∈ visited ∨ w ∈ todo;
  scan_black : ∀ v, v ∈ visited → v ≠ vertex → v ∉ queue →
    ∀ w, edge g v w → w ∈ visited ∧ depth w ≤ S (depth v);
  scan_levels : ∃ q1 q2, queue = q1 ++ q2 ∧
    (∀ v, v ∈ q1 → depth v = depth vertex) ∧
    (∀ v, v ∈ q2 → depth v = S (depth vertex));
  scan_depth : ∀ v, v ∈ visited → depth v ≤ S (depth vertex)
}.

(** The invariant of the outer loop of [bfs_path]. *)
Record loop_inv (g : Graph) (start target : V) (depth : V → nat)
    (visited : gset V) (queue : list V) (parent : gmap V (option V)) : Prop := {
  loop_tree : tree_inv g start depth visited parent;
  loop_target : target ∉ visited;
  loop_queue : ∀ v, v ∈ queue → v ∈ visited;
  loop_black : ∀ v, v ∈ visited → v ∉ queue →
    ∀ w, edge g v w → w ∈ visited ∧ depth w ≤ S (depth v);
  loop_levels : ∃ (k : nat) q1 q2, queue = q1 ++ q2 ∧
    (∀ v, v ∈ q1 → depth v = k) ∧ (∀ v, v ∈ q2 → depth v = S k) ∧
    (∀ v, v ∈ visited → depth v ≤ S k)
}.

(** The invariant of the loop of [bfs] that accounts for the order of the
    result.  The queue is [q1 ++ q2]: the vertices of [q1] were enqueued at
    level [k], those of [q2] at level [k + 1], and [depth] is the level at
    which each visited vertex left the queue. *)
Record bfs_level_inv (g : Graph) (start : V) (depth : V → nat) (k : nat)
    (q1 q2 : list V) (visited : gset V) (result : list V) : Prop := {
  lvl_result : ∀ v, v ∈ result ↔ v ∈ visited;
  lvl_sorted : ∀ (i j : nat) u v,
    i ≤ j → result !! i = Some u → result !! j = Some v → depth u ≤ depth v;
  lvl_walk : ∀ v, v ∈ visited → nsteps (edge g) (depth v) start v;
  lvl_bound : ∀ v, v ∈ visited → depth v ≤ k;
  lvl_q1 : ∀ w, w ∈ q1 → nsteps (edge g) k start w;
  lvl_q2 : ∀ w, w ∈ q2 → nsteps (edge g) (S k) start w;
  lvl_frontier : ∀ u w, u ∈ visited → edge g u w →
    (w ∈ visited ∧ depth w ≤ S (depth u)) ∨
    ((w ∉ visited) ∧ w ∈ q1 ∧ k ≤ S (depth u)) ∨
    ((w ∉ visited) ∧ w ∈ q2 ∧ depth u = k);
  lvl_start : (start ∈ visited ∧ depth start = 0) ∨
              ((start ∉ visited) ∧ start ∈ q1 ∧ k = 0)
}.

End graph.

Arguments Graph V : clear implicits.

(** A string is never [None]; [option V] is [V] with [None] added. *)
#[global] Instance string_PyNone : PyNone string := λ _, false.
#[global] Instance option_PyNone {V} : PyNone (option V) :=
  λ v, match v with None => true | Some _ => false end.

(** ** The scenario graphs of the specification *)

(** The undirected graph of scenarios 1, 2, 4 and 5. *)

Definition scenario1 : Graph string :=
  let g := empty_graph false in
  let g := add_edge g "A" "B" in
  let g := add_edge g "A" "C" in
  let g := add_edge g "B" "D" in
  let g := add_edge g "B" "E" in
  let g := add_edge g "C" "F" in
  add_edge g "E" "F".

(** [g = Graph(); g.add_edge('A', None)] *)
Definition none_end_graph : Graph (option string) :=
  add_edge (empty_graph false) (Some "A") None.

(** [g = Graph(); g.add_edge('A', None); g.add_edge(None, 'B')] *)
Definition none_between_graph : Graph (option string) :=
  add_edge (add_edge (empty_graph false) (Some "A") None) None (Some "B").

(** The directed graph of scenario 3. *)
Definition scenario3 : Graph string :=
  let g := empty_graph true in
  let g := add_edge g "A" "B" in
  let g := add_edge g "A" "C" in
  let g := add_edge g "B" "D" in
  let g := add_edge g "C" "D" in
  add_edge g "D" "E".

Section graph_facts.
Context {V : Type} `{Countable V} `{!PyNone V}.
Implicit Types (g : Graph V) (d : list (V * list V)) (u v w x k : V).

(** ** Lemmas on the adjacency store *)

Lemma py_value_Some v : is_None v = false → py_value v = Some v.
Proof. unfold py_value. by intros ->. Qed.

Lemma dict_get_None d k : dict_get d k = None ↔ k ∉ d.*1.
Proof.
  induction d as [|[k' ns] d IH]; simpl.
  - split; [intros _; apply not_elem_of_nil | done].
  - case_decide as Hk; subst.
    + split; [done | intros Hx; exfalso; apply Hx; left].
    + rewrite IH, not_elem_of_cons. naive_solver.
Qed.

Lemma dict_in_true d k : dict_in k d = true ↔ k ∈ d.*1.
Proof.
  unfold dict_in. destruct (dict_get d k) eqn:E.
  - split; [intros _ | done].
    destruct (decide (k ∈ d.*1)) as [|Hn]; [done|].
    apply dict_get_None in Hn. congruence.
  - apply dict_get_None in E. split; [done | intros; contradiction].
Qed.

Lemma dict_in_is_Some d k : dict_in k d = true ↔ is_Some (dict_get d k).
Proof.
  unfold dict_in. destruct (dict_get d k); split; intros Hx; try done.
Qed.

Lemma dict_get_elem_of d k ns : dict_get d k = Some ns → (k, ns) ∈ d.
Proof.
  induction d as [|[k' ns'] d IH]; simpl; [done|].
  case_decide; subst.
  - intros [= ->]. left.
  - intros. right. auto.
Qed.

Lemma elem_of_dict_get d k ns :
  NoDup d.*1 → (k, ns) ∈ d → dict_get d k = Some ns.
Proof.
  induction d as [|[k' ns'] d IH]; simpl; intros Hnd Hin.
  - by apply elem_of_nil in Hin.
  - apply NoDup_cons in Hnd as [Hk' Hnd].
    apply elem_of_cons in Hin as [[= -> ->]|Hin].
    + by rewrite decide_True.
    + rewrite decide_False; [auto|].
      intros ->. apply Hk'. apply list_elem_of_fmap. by exists (k', ns).
Qed.

Lemma dict_get_snoc d k (l : list V) k' :
  dict_get (d ++ [(k, l)]) k' =
  match dict_get d k' with
  | Some l' => Some l'
  | None => if decide (k' = k) then Some l else None
  end.
Proof.
  induction d as [|[k0 ns] d IH]; simpl; [done|].
  by destruct (decide (k' = k0)).
Qed.

Lemma dict_get_alter f k d k' :
  dict_get (dict_alter f k d) k' =
  if decide (k' = k) then f <$> dict_get d k' else dict_get d k'.
Proof.
  induction d as [|[k0 ns] d IH]; simpl.
  - by case_decide.
  - destruct (decide (k = k0)) as [->|Hk]; simpl.
    + destruct (decide (k' = k0)) as [->|]; by rewrite ?decide_True, ?decide_False.
    + rewrite IH. destruct (decide (k' = k0)) as [->|]; [|done].
      by rewrite decide_False.
Qed.

Lemma dict_alter_keys f k d : (dict_alter f k d).*1 = d.*1.
Proof.
  induction d as [|[k0 ns] d IH]; [done|]. cbn [dict_alter].
  destruct (decide (k = k0)); csimpl; by rewrite ?IH.
Qed.

Lemma dict_get_purge x d k :
  dict_get (purge x d) k =
  (λ ns, if decide (x ∈ ns) then list_remove x ns else ns) <$> dict_get d k.
Proof.
  induction d as [|[k0 ns] d IH]; simpl; [done|].
  by destruct (decide (k = k0)).
Qed.

Lemma purge_keys x d : (purge x d).*1 = d.*1.
Proof. unfold purge. rewrite <-list_fmap_compose. done. Qed.

Lemma dict_del_keys k d :
  NoDup d.*1 → NoDup (dict_del k d).*1 ∧ ∀ k', k' ∈ (dict_del k d).*1 ↔ k' ∈ d.*1 ∧ k' ≠ k.
Proof.
  induction d as [|[k0 ns] d IH]; simpl; intros Hnd.
  - split; [done|]. intros k'. rewrite elem_of_nil. naive_solver.
  - apply NoDup_cons in Hnd as [Hk0 Hnd]. destruct (IH Hnd) as [IH1 IH2].
    case_decide as Hk; subst; simpl.
    + split; [done|]. intros k'. rewrite elem_of_cons. naive_solver.
    + split.
      * apply NoDup_cons. split; [|done]. rewrite IH2. naive_solver.
      * intros k'. rewrite !elem_of_cons, IH2. naive_solver.
Qed.

Lemma dict_get_del k d k' :
  NoDup d.*1 →
  dict_get (dict_del k d) k' = if decide (k' = k) then None else dict_get d k'.
Proof.
  induction d as [|[k0 ns] d IH]; simpl; intros Hnd.
  - by case_decide.
  - apply NoDup_cons in Hnd as [Hk0 Hnd].
    destruct (decide (k = k0)) as [->|Hk]; simpl.
    + destruct (decide (k' = k0)) as [->|]; [|done].
      by apply dict_get_None.
    + rewrite (IH Hnd). destruct (decide (k' = k0)) as [->|]; [|done].
      by rewrite decide_False.
Qed.

Lemma list_remove_absent x (l : list V) : x ∉ l → list_remove x l = l.
Proof.
  induction l as [|y l IH]; simpl; [done|].
  rewrite not_elem_of_cons. intros [? ?]. rewrite decide_False by done.
  f_equal; auto.
Qed.

Lemma list_remove_NoDup x (l : list V) :
  NoDup l → NoDup (list_remove x l) ∧ ∀ y, y ∈ list_remove x l ↔ y ∈ l ∧ y ≠ x.
Proof.
  induction l as [|z l IH]; simpl; intros Hnd.
  - split; [done|]. intros y. rewrite elem_of_nil. naive_solver.
  - apply NoDup_cons in Hnd as [Hz Hnd]. destruct (IH Hnd) as [IH1 IH2].
    case_decide as Hx; subst.
    + split; [done|]. intros y. rewrite elem_of_cons. naive_solver.
    + split.
      * apply NoDup_cons. split; [|done]. rewrite IH2. naive_solver.
      * intros y. rewrite !elem_of_cons, IH2. naive_solver.
Qed.

(** ** The effect of each mutator on vertices and neighbour sequences *)

Lemma has_vertex_keys g v : has_vertex g v = true ↔ v ∈ get_vertices g.
Proof. apply dict_in_true. Qed.

Lemma has_edge_neighbors g u v :
  has_edge g u v = bool_decide (v ∈ get_neighbors g u).
Proof.
  unfold has_edge, get_neighbors. by destruct (dict_get _ u).
Qed.

Lemma edge_neighbors g u v : edge g u v ↔ v ∈ get_neighbors g u.
Proof. unfold edge. rewrite has_edge_neighbors. apply bool_decide_eq_true. Qed.

Lemma neighbors_subscript g u ns :
  dict_get (adjacency_list g) u = Some ns → get_neighbors g u = ns.
Proof. unfold get_neighbors. by intros ->. Qed.

Lemma append_if_absent_keys x k d : (append_if_absent x k d).*1 = d.*1.
Proof.
  unfold append_if_absent. destruct (dict_get d k); [|done].
  case_decide; [done|]. apply dict_alter_keys.
Qed.

Lemma append_if_absent_get x k d u :
  dict_in k d = true →
  default [] (dict_get (append_if_absent x k d) u) =
  if decide (u = k)
  then if decide (x ∈ default [] (dict_get d u)) then default [] (dict_get d u)
       else default [] (dict_get d u) ++ [x]
  else default [] (dict_get d u).
Proof.
  unfold append_if_absent, dict_in. destruct (dict_get d k) as [ns|] eqn:E; [intros _|done].
  destruct (decide (x ∈ ns)) as [Hx|Hx].
  - destruct (decide (u = k)) as [->|]; [|done].
    rewrite E. simpl. by rewrite decide_True.
  - rewrite dict_get_alter. destruct (decide (u = k)) as [->|]; [|done].
    rewrite E. simpl. by rewrite decide_False.
Qed.

Lemma remove_if_present_keys x k d : (remove_if_present x k d).*1 = d.*1.
Proof.
  unfold remove_if_present. destruct (dict_get d k); [|done].
  case_decide; [|done]. apply dict_alter_keys.
Qed.

Lemma remove_if_present_get x k d u :
  default [] (dict_get (remove_if_present x k d) u) =
  if decide (u = k) then list_remove x (default [] (dict_get d u))
  else default [] (dict_get d u).
Proof.
  unfold remove_if_present. destruct (dict_get d k) as [ns|] eqn:E.
  - destruct (decide (x ∈ ns)) as [Hx|Hx].
    + rewrite dict_get_alter. destruct (decide (u = k)) as [->|]; [|done].
      by rewrite E.
    + destruct (decide (u = k)) as [->|]; [|done].
      rewrite E. simpl. by rewrite list_remove_absent.
  - destruct (decide (u = k)) as [->|]; [|done]. by rewrite E.
Qed.

Lemma directed_add_vertex g v : directed (add_vertex g v) = directed g.
Proof. unfold add_vertex. by destruct (dict_in _ _). Qed.

Lemma get_vertices_add_vertex g v :
  get_vertices (add_vertex g v) =
  if has_vertex g v then get_vertices g else get_vertices g ++ [v].
Proof.
  unfold add_vertex, has_vertex, get_vertices.
  destruct (dict_in _ _); [done|]. simpl. by rewrite fmap_app.
Qed.

Lemma has_vertex_add_vertex g v u :
  has_vertex (add_vertex g v) u = true ↔ has_vertex g u = true ∨ u = v.
Proof.
  rewrite !has_vertex_keys, get_vertices_add_vertex.
  destruct (has_vertex g v) eqn:E.
  - apply has_vertex_keys in E. naive_solver.
  - rewrite elem_of_app, list_elem_of_singleton. done.
Qed.

Lemma get_neighbors_add_vertex g v u :
  get_neighbors (add_vertex g v) u = get_neighbors g u.
Proof.
  unfold add_vertex, get_neighbors, dict_in.
  destruct (dict_get (adjacency_list g) v) eqn:E; [done|]. simpl.
  rewrite dict_get_snoc. destruct (dict_get (adjacency_list g) u) eqn:E'; [done|].
  by case_decide.
Qed.

Lemma NoDup_add_vertex g v :
  NoDup (get_vertices g) → NoDup (get_vertices (add_vertex g v)).
Proof.
  intros Hnd. rewrite get_vertices_add_vertex.
  destruct (has_vertex g v) eqn:E; [done|].
  apply NoDup_app. split_and!; [done| |apply NoDup_singleton].
  intros x Hx ->%list_elem_of_singleton.
  apply has_vertex_keys in Hx. congruence.
Qed.

Lemma directed_add_edge g a b : directed (add_edge g a b) = directed g.
Proof. unfold add_edge. simpl. by rewrite !directed_add_vertex. Qed.

Lemma get_vertices_add_edge g a b :
  get_vertices (add_edge g a b) = get_vertices (add_vertex (add_vertex g a) b).
Proof.
  unfold add_edge, get_vertices. simpl.
  destruct (directed _); by rewrite !append_if_absent_keys.
Qed.

Lemma has_vertex_add_edge g a b u :
  has_vertex (add_edge g a b) u = true ↔ has_vertex g u = true ∨ u = a ∨ u = b.
Proof.
  rewrite has_vertex_keys, get_vertices_add_edge, <-has_vertex_keys.
  rewrite !has_vertex_add_vertex. naive_solver.
Qed.

(** The subscripts of [add_edge] never raise: both keys were registered. *)
Lemma add_edge_subscripts g a b :
  let g' := add_vertex (add_vertex g a) b in
  dict_in a (adjacency_list g') = true ∧
  dict_in b (append_if_absent b a (adjacency_list g')) = true.
Proof.
  intros g'. assert (Ha : has_vertex g' a = true).
  { apply has_vertex_add_vertex. left. apply has_vertex_add_vertex. by right. }
  assert (Hb : has_vertex g' b = true).
  { apply has_vertex_add_vertex. by right. }
  split; [done|].
  apply dict_in_true. rewrite append_if_absent_keys. by apply dict_in_true.
Qed.

Lemma get_neighbors_add_edge g a b u :
  get_neighbors (add_edge g a b) u =
  let n1 := if decide (u = a)
            then if decide (b ∈ get_neighbors g u) then get_neighbors g u
                 else get_neighbors g u ++ [b]
            else get_neighbors g u in
  if directed g then n1
  else if decide (u = b) then if decide (a ∈ n1) then n1 else n1 ++ [a] else n1.
Proof.
  destruct (add_edge_subscripts g a b) as [Ha Hb].
  unfold add_edge, get_neighbors at 1. cbn [adjacency_list with_adjacency].
  rewrite !directed_add_vertex. cbv zeta.
  assert (Hn : ∀ w, default [] (dict_get (adjacency_list (add_vertex (add_vertex g a) b)) w)
                    = get_neighbors g w).
  { intros w. by rewrite <-(get_neighbors_add_vertex g a w),
      <-(get_neighbors_add_vertex (add_vertex g a) b w). }
  destruct (directed g).
  - by rewrite append_if_absent_get, Hn by done.
  - by rewrite append_if_absent_get, append_if_absent_get, Hn by done.
Qed.

Lemma elem_of_neighbors_add_edge g a b u w :
  w ∈ get_neighbors (add_edge g a b) u ↔
  w ∈ get_neighbors g u ∨ (u = a ∧ w = b) ∨ (directed g = false ∧ u = b ∧ w = a).
Proof.
  rewrite get_neighbors_add_edge. cbv zeta.
  destruct (directed g); repeat case_decide; subst;
    rewrite ?elem_of_app, ?list_elem_of_singleton; naive_solver.
Qed.

Lemma NoDup_neighbors_add_edge g a b u :
  NoDup (get_neighbors g u) → NoDup (get_neighbors (add_edge g a b) u).
Proof.
  intros Hnd. rewrite get_neighbors_add_edge. cbv zeta.
  assert (Hsn : ∀ (l : list V) y, NoDup l → y ∉ l → NoDup (l ++ [y])).
  { intros l y ? ?. apply NoDup_app. split_and!; [done| |apply NoDup_singleton].
    by intros ? ? ->%list_elem_of_singleton. }
  destruct (directed g); repeat case_decide; subst; auto.
Qed.

Lemma directed_remove_edge g a b : directed (remove_edge g a b) = directed g.
Proof. done. Qed.

Lemma get_vertices_remove_edge g a b :
  get_vertices (remove_edge g a b) = get_vertices g.
Proof.
  unfold remove_edge, get_vertices. simpl.
  destruct (directed _); by rewrite !remove_if_present_keys.
Qed.

Lemma get_neighbors_remove_edge g a b u :
  get_neighbors (remove_edge g a b) u =
  let n1 := if decide (u = a) then list_remove b (get_neighbors g u)
            else get_neighbors g u in
  if directed g then n1 else if decide (u = b) then list_remove a n1 else n1.
Proof.
  unfold remove_edge, get_neighbors at 1. cbn [adjacency_list with_adjacency].
  destruct (directed g).
  - by rewrite remove_if_present_get.
  - by rewrite !remove_if_present_get.
Qed.

Lemma neighbors_remove_edge_spec g a b u :
  NoDup (get_neighbors g u) →
  NoDup (get_neighbors (remove_edge g a b) u) ∧
  ∀ w, w ∈ get_neighbors (remove_edge g a b) u ↔
       w ∈ get_neighbors g u ∧ ¬ (u = a ∧ w = b) ∧
       ¬ (directed g = false ∧ u = b ∧ w = a).
Proof.
  intros Hnd. rewrite get_neighbors_remove_edge. cbv zeta.
  pose proof (list_remove_NoDup b _ Hnd) as [Hb1 Hb2].
  pose proof (list_remove_NoDup a _ Hnd) as [Ha1 Ha2].
  pose proof (list_remove_NoDup a _ Hb1) as [Hab1 Hab2].
  destruct (directed g); repeat case_decide; subst; (split; [done|]); intros w;
    rewrite ?Hab2, ?Hb2, ?Ha2; naive_solver.
Qed.

Lemma directed_remove_vertex g v : directed (remove_vertex g v) = directed g.
Proof. unfold remove_vertex. by destruct (dict_in _ _). Qed.

Lemma remove_vertex_absent g v : has_vertex g v = false → remove_vertex g v = g.
Proof. unfold remove_vertex, has_vertex. by intros ->. Qed.

Lemma get_vertices_remove_vertex g v :
  NoDup (get_vertices g) →
  NoDup (get_vertices (remove_vertex g v)) ∧
  ∀ u, u ∈ get_vertices (remove_vertex g v) ↔ u ∈ get_vertices g ∧ u ≠ v.
Proof.
  intros Hnd. unfold remove_vertex. destruct (dict_in _ _) eqn:E.
  - unfold get_vertices in *. simpl.
    rewrite <-(purge_keys v) in Hnd.
    destruct (dict_del_keys v _ Hnd) as [? Hk]. split; [done|].
    intros u. by rewrite Hk, purge_keys.
  - split; [done|]. intros u. split; [|naive_solver].
    intros Hu. split; [done|]. intros ->.
    apply has_vertex_keys in Hu. unfold has_vertex in Hu. congruence.
Qed.

Lemma get_neighbors_remove_vertex g v u :
  NoDup (get_vertices g) → has_vertex g v = true →
  get_neighbors (remove_vertex g v) u =
  if decide (u = v) then [] else list_remove v (get_neighbors g u).
Proof.
  intros Hnd Hv. unfold remove_vertex. unfold has_vertex in Hv. rewrite Hv.
  unfold get_neighbors. cbn [adjacency_list with_adjacency].
  rewrite dict_get_del by (by rewrite purge_keys).
  case_decide; [done|]. rewrite dict_get_purge.
  destruct (dict_get (adjacency_list g) u) as [ns|]; simpl; [|done].
  case_decide; [done|]. by rewrite list_remove_absent.
Qed.

(** ** The invariants hold on every graph built through the API *)

Lemma wf_empty b : wf_graph (empty_graph b : Graph V).
Proof.
  split; simpl.
  - apply NoDup_nil_2.
  - intros u. apply NoDup_nil_2.
  - intros u v Hv. by apply elem_of_nil in Hv.
  - intros _ u v Hv. by apply elem_of_nil in Hv.
Qed.

Lemma wf_add_vertex g v : wf_graph g → wf_graph (add_vertex g v).
Proof.
  intros [Hk Hn Hc Hs]. split.
  - by apply NoDup_add_vertex.
  - intros u. by rewrite get_neighbors_add_vertex.
  - intros u w. rewrite get_neighbors_add_vertex, has_vertex_add_vertex. eauto.
  - rewrite directed_add_vertex. intros Hd u w.
    rewrite !get_neighbors_add_vertex. auto.
Qed.

Lemma wf_add_edge g a b : wf_graph g → wf_graph (add_edge g a b).
Proof.
  intros [Hk Hn Hc Hs]. split.
  - rewrite get_vertices_add_edge. by do 2 apply NoDup_add_vertex.
  - intros u. by apply NoDup_neighbors_add_edge.
  - intros u w. rewrite elem_of_neighbors_add_edge, has_vertex_add_edge.
    naive_solver.
  - rewrite directed_add_edge. intros Hd u w.
    rewrite !elem_of_neighbors_add_edge. naive_solver.
Qed.

Lemma wf_remove_edge g a b : wf_graph g → wf_graph (remove_edge g a b).
Proof.
  intros [Hk Hn Hc Hs]. split.
  - by rewrite get_vertices_remove_edge.
  - intros u. by apply neighbors_remove_edge_spec.
  - intros u w Hw. apply neighbors_remove_edge_spec in Hw as (Hw & _); [|done].
    apply has_vertex_keys. rewrite get_vertices_remove_edge.
    apply has_vertex_keys. eauto.
  - rewrite directed_remove_edge. intros Hd u w Hw.
    apply neighbors_remove_edge_spec in Hw as (Hw & H1 & H2); [|done].
    apply neighbors_remove_edge_spec; [done|]. naive_solver.
Qed.

Lemma neighbors_remove_vertex_spec g v u :
  wf_graph g → has_vertex g v = true →
  NoDup (get_neighbors (remove_vertex g v) u) ∧
  ∀ w, w ∈ get_neighbors (remove_vertex g v) u ↔
       w ∈ get_neighbors g u ∧ w ≠ v ∧ u ≠ v.
Proof.
  intros [Hk Hn Hc Hs] Hv. rewrite get_neighbors_remove_vertex by done.
  destruct (list_remove_NoDup v _ (Hn u)) as [H1 H2].
  case_decide; subst.
  - split; [apply NoDup_nil_2|]. intros w. rewrite elem_of_nil. naive_solver.
  - split; [done|]. intros w. rewrite H2. naive_solver.
Qed.

Lemma wf_remove_vertex g v : wf_graph g → wf_graph (remove_vertex g v).
Proof.
  intros Hwf. destruct (has_vertex g v) eqn:Hv;
    [|by rewrite remove_vertex_absent].
  pose proof Hwf as [Hk Hn Hc Hs]. split.
  - by apply get_vertices_remove_vertex.
  - intros u. by apply neighbors_remove_vertex_spec.
  - intros u w Hw. apply neighbors_remove_vertex_spec in Hw as (Hw & ? & ?); [|done..].
    apply has_vertex_keys, get_vertices_remove_vertex; [done|].
    split; [|done]. apply has_vertex_keys. eauto.
  - rewrite directed_remove_vertex. intros Hd u w Hw.
    apply neighbors_remove_vertex_spec in Hw as (Hw & ? & ?); [|done..].
    apply neighbors_remove_vertex_spec; [done..|]. naive_solver.
Qed.

Lemma Built_wf g : Built g → wf_graph g.
Proof.
  induction 1; auto using wf_empty, wf_add_vertex, wf_add_edge,
    wf_remove_edge, wf_remove_vertex.
Qed.

(** ** Symmetry, idempotent insertion, cascade deletion *)

(** C4: in an undirected graph built through the mutation API, [v] is in
    [adjacency[u]] exactly when [u] is in [adjacency[v]], and
    [has_edge(u, v) == has_edge(v, u)]. *)
Theorem undirected_symmetry g u v :
  Built g → directed g = false →
  (∀ nu nv, dict_get (adjacency_list g) u = Some nu →
            dict_get (adjacency_list g) v = Some nv → (v ∈ nu ↔ u ∈ nv)) ∧
  has_edge g u v = has_edge g v u.
Proof.
  intros Hb Hd. pose proof (wf_sym g (Built_wf g Hb) Hd) as Hs. split.
  - intros nu nv Hu Hv.
    rewrite <-(neighbors_subscript g u nu Hu), <-(neighbors_subscript g v nv Hv).
    split; apply Hs.
  - rewrite !has_edge_neighbors. apply bool_decide_ext. split; apply Hs.
Qed.

Lemma count_NoDup {A} (P : A → Prop) `{∀ a, Decision (P a)} (l : list A) a :
  NoDup l → a ∈ l → P a → (∀ b, b ∈ l → P b → b = a) →
  length (filter P l) = 1.
Proof.
  induction l as [|b l IH]; intros Hnd Ha HP Huniq.
  - by apply elem_of_nil in Ha.
  - apply NoDup_cons in Hnd as [Hb Hnd].
    assert (Hz : b = a → length (filter P l) = 0).
    { intros ->. destruct (filter P l) as [|c l'] eqn:E; [done|].
      assert (Hc : c ∈ filter P l) by (rewrite E; left).
      apply list_elem_of_filter in Hc as [HPc Hc].
      assert (c = a) as -> by (apply Huniq; [by right | done]). done. }
    rewrite filter_cons. apply elem_of_cons in Ha as [->|Ha].
    + rewrite decide_True by done. simpl. by rewrite Hz.
    + destruct (decide (P b)) as [HPb|HPb].
      * assert (b = a) as -> by (apply Huniq; [left | done]). contradiction.
      * apply IH; auto. intros c Hc. apply Huniq. by right.
Qed.

Lemma add_edge_twice g u v w :
  get_neighbors (add_edge (add_edge g u v) u v) w = get_neighbors (add_edge g u v) w.
Proof.
  rewrite (get_neighbors_add_edge (add_edge g u v)). cbv zeta.
  rewrite directed_add_edge.
  assert (H1 : v ∈ get_neighbors (add_edge g u v) u).
  { apply elem_of_neighbors_add_edge. naive_solver. }
  destruct (directed g) eqn:Hd.
  - case_decide; subst; [|done]. by rewrite decide_True.
  - assert (H2 : u ∈ get_neighbors (add_edge g u v) v).
    { apply elem_of_neighbors_add_edge. naive_solver. }
    repeat case_decide; subst; done.
Qed.

(** C5: no neighbour sequence of a graph built through the API holds a
    duplicate; a second [add_edge(u, v)] leaves every [get_neighbors]
    sequence as it is; and in an undirected graph [add_edge(u, u)] leaves [u]
    exactly once in [adjacency[u]]. *)
Theorem no_duplicate_neighbors g :
  Built g →
  (∀ u, NoDup (get_neighbors g u)) ∧
  (∀ u v w, get_neighbors (add_edge (add_edge g u v) u v) w
            = get_neighbors (add_edge g u v) w) ∧
  (∀ u, directed g = false →
        length (filter (λ y, y = u) (get_neighbors (add_edge g u u) u)) = 1).
Proof.
  intros Hb. split_and!.
  - apply (wf_nodup g (Built_wf g Hb)).
  - intros. apply add_edge_twice.
  - intros u _. apply (count_NoDup _ _ u); [| |done|naive_solver].
    + apply (wf_nodup _ (Built_wf _ (Built_add_edge g u u Hb))).
    + apply elem_of_neighbors_add_edge. naive_solver.
Qed.

(** C6: after [remove_vertex(v)] the vertex is gone, no neighbour sequence
    mentions it, and the graph is unchanged when [v] was not a vertex. *)
Theorem remove_vertex_cascade g v :
  Built g →
  has_vertex (remove_vertex g v) v = false ∧
  (∀ u, v ∉ get_neighbors (remove_vertex g v) u) ∧
  (has_vertex g v = false → remove_vertex g v = g).
Proof.
  intros Hb. pose proof (Built_wf g Hb) as Hwf. split_and!.
  - apply not_true_is_false. intros Hv.
    apply has_vertex_keys, get_vertices_remove_vertex in Hv; [|apply Hwf].
    naive_solver.
  - intros u Hu. destruct (has_vertex g v) eqn:Hv.
    + apply neighbors_remove_vertex_spec in Hu; naive_solver.
    + rewrite remove_vertex_absent in Hu by done.
      apply (wf_closed g Hwf) in Hu. congruence.
  - apply remove_vertex_absent.
Qed.

(** ** [get_edges] *)

(** The (vertex, neighbour) pairs in the order in which the two nested loops
    of [get_edges] meet them. *)
Lemma get_edges_flat g :
  get_edges g =
  foldl (λ edges p, emit_edge (directed g) p.1 edges p.2) []
        (adjacency_list g ≫= λ e, pair e.1 <$> e.2).
Proof.
  unfold get_edges. generalize (@nil (V * V)).
  induction (adjacency_list g) as [|[k ns] d IH]; intros acc; [done|].
  simpl. rewrite foldl_app, <-IH. f_equal.
  clear. revert acc. induction ns as [|n ns IH]; intros acc; [done|].
  simpl. by rewrite IH.
Qed.

Lemma elem_of_pairs d u v :
  (u, v) ∈ (d ≫= λ e, pair e.1 <$> e.2) ↔ ∃ ns, (u, ns) ∈ d ∧ v ∈ ns.
Proof.
  rewrite list_elem_of_bind. split.
  - intros ([k ns] & Hin & Hd). apply list_elem_of_fmap in Hin as (y & [= -> ->] & Hy).
    eauto.
  - intros (ns & Hd & Hv). exists (u, ns). split; [|done].
    apply list_elem_of_fmap. eauto.
Qed.

Lemma NoDup_pairs d :
  NoDup d.*1 → (∀ k ns, (k, ns) ∈ d → NoDup ns) →
  NoDup (d ≫= λ e, pair e.1 <$> e.2).
Proof.
  induction d as [|[k ns] d IH]; intros Hk Hn; [apply NoDup_nil_2|].
  csimpl in *. apply NoDup_cons in Hk as [Hk Hnd]. apply NoDup_app. split_and!.
  - apply (NoDup_fmap_2_strong (pair k)); [intros ?? _ _ [=]; done|]. apply (Hn k). left.
  - intros [a b] (y & [= -> ->] & Hy)%list_elem_of_fmap (ns' & Hin & _)%elem_of_pairs.
    apply Hk. apply list_elem_of_fmap. by exists (k, ns').
  - apply IH; [done|]. intros k' ns' Hin. apply (Hn k'). by right.
Qed.

Lemma undirected_edges_fold (ps : list (V * V)) :
  NoDup ps →
  let R := foldl (λ edges p, emit_edge false p.1 edges p.2) [] ps in
  NoDup R ∧ (∀ e, e ∈ R → e ∈ ps) ∧
  (∀ a b, (a, b) ∈ ps → (a, b) ∈ R ∨ (b, a) ∈ R) ∧
  (∀ a b, (a, b) ∈ R → (b, a) ∈ R → a = b).
Proof.
  induction ps as [|[a b] ps IH] using rev_ind; intros Hnd; cbv zeta.
  - simpl. split_and!; [apply NoDup_nil_2|done| |]; intros ?? Hx; by apply elem_of_nil in Hx.
  - apply NoDup_app in Hnd as (Hnd & Hab & _).
    destruct (IH Hnd) as (I1 & I2 & I3 & I4). clear IH.
    rewrite foldl_app. set (R := foldl _ _ ps) in *.
    cbn [foldl fst snd]. unfold emit_edge.
    assert (Hnew : (a, b) ∉ R).
    { intros Hx. apply (Hab (a, b)); [auto | left]. }
    destruct (decide ((b, a) ∈ R)) as [Hba|Hba].
    + split_and!; [done| | |done].
      * intros e He. apply elem_of_app. auto.
      * intros x y [Hx|Hx%list_elem_of_singleton]%elem_of_app; [auto|].
        injection Hx as -> ->. auto.
    + split_and!.
      * apply NoDup_app. split_and!; [done| |apply NoDup_singleton].
        by intros ? ? ->%list_elem_of_singleton.
      * intros e. rewrite !elem_of_app. naive_solver.
      * intros x y. rewrite !elem_of_app, !list_elem_of_singleton.
        intros [Hx|Hx]; [destruct (I3 x y Hx); auto|]. injection Hx as -> ->. auto.
      * intros x y. rewrite !elem_of_app, !list_elem_of_singleton.
        intros [Hx|Hx] [Hy|Hy]; [by apply I4| | |]; naive_solver.
Qed.

Lemma edge_entry g u v :
  NoDup (get_vertices g) →
  edge g u v ↔ ∃ ns, (u, ns) ∈ adjacency_list g ∧ v ∈ ns.
Proof.
  intros Hk. rewrite edge_neighbors. unfold get_neighbors. split.
  - destruct (dict_get _ u) as [ns|] eqn:E; simpl; [|by intros ?%elem_of_nil].
    intros Hv. exists ns. split; [by apply dict_get_elem_of | done].
  - intros (ns & Hin & Hv). by rewrite (elem_of_dict_get _ _ _ Hk Hin).
Qed.

(** C7: in an undirected graph without duplicate neighbour entries (and,
    as in any dict, without duplicate keys), [get_edges()] holds exactly one entry for each undirected edge [{u, v}]
    (either [(u, v)] or [(v, u)], never both), exactly one entry for a
    self-loop, and nothing that is not an edge. *)
Theorem get_edges_undirected_once g :
  NoDup (get_vertices g) → (∀ u, NoDup (get_neighbors g u)) →
  directed g = false →
  (∀ u v, edge g u v →
     length (filter (λ e, e = (u, v) ∨ e = (v, u)) (get_edges g)) = 1) ∧
  (∀ u v, (u, v) ∈ get_edges g → edge g u v).
Proof.
  intros Hk Hn Hd. rewrite get_edges_flat, Hd.
  assert (Hps : NoDup (adjacency_list g ≫= λ e, pair e.1 <$> e.2)).
  { apply NoDup_pairs; [done|]. intros k ns Hin.
    rewrite <-(neighbors_subscript g k ns); [apply Hn|].
    by apply elem_of_dict_get. }
  destruct (undirected_edges_fold _ Hps) as (R1 & R2 & R3 & R4).
  set (R := foldl _ _ _) in *. split.
  - intros u v Huv. apply edge_entry, elem_of_pairs, R3 in Huv; [|done].
    destruct Huv as [Hin|Hin].
    + apply (count_NoDup _ _ (u, v)); [done..|by left|].
      intros e He [->| ->]; [done|]. by rewrite (R4 _ _ Hin He).
    + apply (count_NoDup _ _ (v, u)); [done..|by right|].
      intros e He [->| ->]; [|done]. by rewrite (R4 _ _ Hin He).
  - intros u v Hin. apply edge_entry; [done|]. by apply elem_of_pairs, R2.
Qed.

(** ** Termination measure shared by [bfs] and [dfs] *)

Lemma unvisited_degree_mono d (X Y : gset V) :
  X ⊆ Y → unvisited_degree Y d ≤ unvisited_degree X d.
Proof.
  intros HXY. unfold unvisited_degree.
  induction d as [|[k ns] d IH]; csimpl; [done|].
  destruct (decide (k ∈ Y)), (decide (k ∈ X)); try lia. set_solver.
Qed.

Lemma unvisited_degree_visit d (X : gset V) v ns :
  v ∉ X → dict_get d v = Some ns →
  unvisited_degree ({[v]} ∪ X) d + length ns ≤ unvisited_degree X d.
Proof.
  intros Hv. unfold unvisited_degree.
  induction d as [|[k l] d IH]; csimpl; [done|].
  destruct (decide (v = k)) as [->|Hk].
  - intros [= ->]. rewrite decide_True by set_solver.
    rewrite decide_False by done.
    pose proof (unvisited_degree_mono d X ({[k]} ∪ X)) as Hm.
    unfold unvisited_degree in Hm. specialize (Hm ltac:(set_solver)). lia.
  - intros Hg. specialize (IH Hg).
    destruct (decide (k ∈ {[v]} ∪ X)), (decide (k ∈ X)); try lia; set_solver.
Qed.

Lemma unvisited_degree_empty g :
  S (unvisited_degree ∅ (adjacency_list g)) ≤ loop_bound g.
Proof.
  unfold loop_bound, unvisited_degree.
  induction (adjacency_list g) as [|[k l] d IH]; csimpl; [lia|].
  rewrite decide_False by set_solver. lia.
Qed.

Lemma elem_of_enqueue_unvisited (X : gset V) ns queue v :
  v ∈ enqueue_unvisited X ns queue ↔ v ∈ queue ∨ (v ∈ ns ∧ v ∉ X).
Proof.
  revert queue. induction ns as [|n ns IH]; intros queue; cbn [enqueue_unvisited].
  - rewrite elem_of_nil. naive_solver.
  - case_decide; rewrite IH; set_solver.
Qed.

Lemma length_enqueue_unvisited (X : gset V) ns queue :
  length (enqueue_unvisited X ns queue) ≤ length queue + length ns.
Proof.
  revert queue. induction ns as [|n ns IH]; intros queue;
    cbn [enqueue_unvisited length]; [lia|].
  case_decide.
  - specialize (IH queue). lia.
  - specialize (IH (queue ++ [n])). rewrite length_app in IH. simpl in IH. lia.
Qed.

(** ** Breadth-first traversal *)

Lemma reachable_has_vertex g start v :
  wf_graph g → has_vertex g start = true → rtc (edge g) start v →
  has_vertex g v = true.
Proof.
  intros Hwf Hs. revert v. apply rtc_ind_r; [done|]. intros y z _ Hyz _.
  apply edge_neighbors in Hyz. by apply (wf_closed g Hwf) in Hyz.
Qed.

Lemma has_vertex_subscript g v :
  has_vertex g v = true → ∃ ns, dict_get (adjacency_list g) v = Some ns.
Proof. intros Hv. by apply dict_in_is_Some in Hv as [ns ?]; exists ns. Qed.

Lemma bfs_inv_final g start visited result :
  bfs_inv g start visited [] result →
  NoDup result ∧ ∀ v, v ∈ result ↔ rtc (edge g) start v.
Proof.
  intros [I1 I2 I3 I4 I5 I6]. split; [done|].
  intros v. rewrite I2. split; [apply I3|].
  assert (Hst : start ∈ visited) by (destruct I6 as [|?%elem_of_nil]; done).
  revert v. apply rtc_ind_r; [done|]. intros y z _ Hyz Hy.
  destruct (I5 y z Hy Hyz) as [|?%elem_of_nil]; done.
Qed.

Lemma bfs_loop_spec g start :
  wf_graph g → has_vertex g start = true →
  ∀ fuel visited queue result,
    length queue + unvisited_degree visited (adjacency_list g) ≤ fuel →
    bfs_inv g start visited queue result →
    ∃ l, bfs_loop fuel g None visited queue result = Returns l ∧
         NoDup l ∧ ∀ v, v ∈ l ↔ rtc (edge g) start v.
Proof.
  intros Hwf Hs fuel.
  induction fuel as [|fuel IH]; intros visited queue result Hfuel Hinv;
    destruct queue as [|vertex queue]; simpl in Hfuel; try lia.
  1,2: by (exists result; split; [done|]; eapply bfs_inv_final).
  cbn [bfs_loop]. destruct (decide (vertex ∈ visited)) as [Hvis|Hvis].
  - apply IH; [lia|]. destruct Hinv as [I1 I2 I3 I4 I5 I6]. split; auto.
    + intros v Hv. apply I4. by right.
    + intros u v Hu Huv. destruct (I5 u v Hu Huv) as [|[->|]%elem_of_cons]; auto.
    + destruct I6 as [|[->|]%elem_of_cons]; auto.
  - rewrite decide_False by done.
    destruct Hinv as [I1 I2 I3 I4 I5 I6].
    assert (Hreach : rtc (edge g) start vertex) by (apply I4; left).
    destruct (has_vertex_subscript g vertex) as [ns Hns];
      [by eapply reachable_has_vertex|].
    unfold subscript. rewrite Hns. outcome_simpl.
    apply IH.
    + pose proof (length_enqueue_unvisited ({[vertex]} ∪ visited) ns queue).
      pose proof (unvisited_degree_visit _ visited vertex ns Hvis Hns). lia.
    + split.
      * apply NoDup_app. split_and!; [done| |apply NoDup_singleton].
        intros x Hx ->%list_elem_of_singleton. by apply Hvis, I2.
      * intros v. rewrite elem_of_app, list_elem_of_singleton, I2. set_solver.
      * intros v [->%elem_of_singleton|Hv]%elem_of_union; auto.
      * intros v [Hv|[Hv _]]%elem_of_enqueue_unvisited; [apply I4; by right|].
        eapply rtc_r; [done|].
        apply edge_neighbors. by rewrite (neighbors_subscript g vertex ns).
      * intros u v Hu Huv. rewrite elem_of_enqueue_unvisited.
        destruct (decide (v ∈ {[vertex]} ∪ visited)) as [|Hnv]; [by left|right].
        apply elem_of_union in Hu as [->%elem_of_singleton|Hu].
        -- right. split; [|done]. apply edge_neighbors in Huv.
           by rewrite (neighbors_subscript g vertex ns) in Huv.
        -- destruct (I5 u v Hu Huv) as [|[->|]%elem_of_cons]; [set_solver|set_solver|].
           by left.
      * destruct I6 as [|[->|]%elem_of_cons]; [set_solver|set_solver|].
        right. apply elem_of_enqueue_unvisited. by left.
Qed.

(** C3: with no target, [bfs(start)] returns the vertices reachable from
    [start], each exactly once. *)
Theorem bfs_complete g start :
  Built g → has_vertex g start = true →
  ∃ l, bfs g start None = Returns l ∧ NoDup l ∧
       ∀ v, v ∈ l ↔ rtc (edge g) start v.
Proof.
  intros Hb Hs. pose proof (Built_wf g Hb) as Hwf.
  unfold bfs. unfold has_vertex in Hs. rewrite Hs.
  apply bfs_loop_spec; [done..| |].
  - simpl. apply unvisited_degree_empty.
  - split.
    + apply NoDup_nil_2.
    + intros v. rewrite elem_of_nil. set_solver.
    + set_solver.
    + intros v ->%list_elem_of_singleton. done.
    + set_solver.
    + right. left.
Qed.

(** ** Depth-first traversal: the two variants agree *)

Lemma unvisited_count_mono d (X Y : gset V) :
  X ⊆ Y → unvisited_count Y d ≤ unvisited_count X d.
Proof.
  intros HXY. unfold unvisited_count.
  induction (d.*1) as [|k ks IH]; [done|].
  rewrite !filter_cons.
  destruct (decide (k ∉ Y)), (decide (k ∉ X)); cbn [length]; try lia. set_solver.
Qed.

Lemma unvisited_count_visit d (X : gset V) v :
  v ∈ d.*1 → v ∉ X → unvisited_count ({[v]} ∪ X) d < unvisited_count X d.
Proof.
  intros Hin Hv. unfold unvisited_count.
  induction (d.*1) as [|k ks IH]; [by apply elem_of_nil in Hin|].
  rewrite !filter_cons. destruct (decide (k = v)) as [->|Hk].
  - rewrite decide_False by set_solver. rewrite decide_True by done.
    pose proof (unvisited_count_mono [] X ({[v]} ∪ X)) as Hm.
    clear IH Hin. cbn [length].
    assert (length (filter (λ k, k ∉ {[v]} ∪ X) ks) ≤ length (filter (λ k, k ∉ X) ks)).
    { clear. induction ks as [|k ks IH]; [done|]. rewrite !filter_cons.
      destruct (decide (k ∉ {[v]} ∪ X)), (decide (k ∉ X)); cbn [length]; try lia.
      set_solver. }
    lia.
  - apply elem_of_cons in Hin as [->|Hin]; [done|]. specialize (IH Hin).
    destruct (decide (k ∉ {[v]} ∪ X)), (decide (k ∉ X)); cbn [length]; try lia;
      set_solver.
Qed.

Lemma unvisited_count_le d (X : gset V) : unvisited_count X d ≤ length d.
Proof.
  unfold unvisited_count. rewrite <-(length_fmap fst d). apply length_filter.
Qed.

Lemma push_unvisited_filter (X : gset V) ns stack :
  push_unvisited X (reverse ns) stack = filter (λ n, n ∉ X) ns ++ stack.
Proof.
  assert (Hgen : ∀ l st, push_unvisited X l st = reverse (filter (λ n, n ∉ X) l) ++ st).
  { induction l as [|n l IH]; intros st; cbn [push_unvisited]; [done|].
    rewrite filter_cons. destruct (decide (n ∈ X)).
    - rewrite decide_False by auto. apply IH.
    - rewrite decide_True by done. rewrite IH, reverse_cons, <-app_assoc. done. }
  by rewrite Hgen, filter_reverse, reverse_involutive.
Qed.

Lemma length_push_unvisited (X : gset V) ns stack :
  length (push_unvisited X ns stack) ≤ length stack + length ns.
Proof.
  revert stack. induction ns as [|n ns IH]; intros stack;
    cbn [push_unvisited length]; [lia|].
  case_decide.
  - specialize (IH stack). lia.
  - specialize (IH (n :: stack)). cbn [length] in IH. lia.
Qed.

Lemma elem_of_push_unvisited (X : gset V) ns stack v :
  v ∈ push_unvisited X ns stack → v ∈ stack ∨ v ∈ ns.
Proof.
  revert stack. induction ns as [|n ns IH]; intros stack; cbn [push_unvisited].
  - auto.
  - case_decide; intros Hv%IH; set_solver.
Qed.

Lemma dfs_visit_all_mono helper ns :
  (∀ v st b st', helper v st = Returns (b, st') → st.1 ⊆ st'.1) →
  ∀ st b st', dfs_visit_all helper ns st = Returns (b, st') → st.1 ⊆ st'.1.
Proof.
  intros Hh. induction ns as [|n ns IH]; intros st b st'; cbn [dfs_visit_all].
  - by intros [= <- <-].
  - case_decide; [apply IH|].
    destruct (helper n st) as [[b1 st1]| |] eqn:E;
      outcome_simpl; try done.
    destruct b1.
    + intros [= <- <-]. by eapply Hh.
    + intros Hr. etrans; [by eapply Hh | by eapply IH].
Qed.

Lemma dfs_helper_mono g target fuel :
  ∀ v st b st', dfs_helper fuel g target v st = Returns (b, st') → st.1 ⊆ st'.1.
Proof.
  induction fuel as [|fuel IH]; intros v st b st'; cbn [dfs_helper]; [done|].
  case_decide; [by intros [= <- <-]|].
  case_decide; [intros [= <- <-]; cbn [fst]; set_solver|].
  unfold subscript. destruct (dict_get _ v) as [ns|];
    outcome_simpl; [|done].
  intros Hr. apply dfs_visit_all_mono in Hr; [|exact IH].
  cbn [fst] in Hr. set_solver.
Qed.

(** Every call of [dfs_helper] returns when the fuel exceeds the number of
    unvisited vertices. *)
Lemma dfs_helper_returns g target :
  wf_graph g →
  ∀ fuel v st,
    has_vertex g v = true → unvisited_count st.1 (adjacency_list g) < fuel →
    ∃ b st', dfs_helper fuel g target v st = Returns (b, st').
Proof.
  intros Hwf. induction fuel as [|fuel IH]; intros v st Hv Hfuel; [lia|].
  cbn [dfs_helper]. case_decide as Hvis; [by eauto|].
  case_decide; [by eauto|].
  destruct (has_vertex_subscript g v Hv) as [ns Hns].
  unfold subscript. rewrite Hns. outcome_simpl.
  assert (Hclosed : ∀ n, n ∈ ns → has_vertex g n = true).
  { intros n Hn. apply (wf_closed g Hwf v). by rewrite (neighbors_subscript g v ns). }
  assert (Hlt : unvisited_count ({[v]} ∪ st.1) (adjacency_list g) < fuel).
  { apply has_vertex_keys in Hv.
    pose proof (unvisited_count_visit (adjacency_list g) st.1 v Hv Hvis). lia. }
  generalize (st.2 ++ [v]). revert Hlt. generalize ({[v]} ∪ st.1).
  clear Hns Hvis. induction ns as [|n ns IHns]; intros X Hlt res; cbn [dfs_visit_all].
  - eauto.
  - cbn [fst]. case_decide; [apply IHns; [set_solver|done]|].
    destruct (IH n (X, res)) as (b1 & st1 & E); [apply Hclosed; left|done|].
    rewrite E. outcome_simpl.
    destruct b1; [by eauto|]. destruct st1 as [X1 res1].
    apply IHns; [set_solver|].
    apply dfs_helper_mono in E. cbn [fst] in E.
    pose proof (unvisited_count_mono (adjacency_list g) X X1 E). lia.
Qed.

(** One call of [dfs_helper] is a run of the loop of [dfs] that starts with
    the vertex on top of the stack: the run ends the loop when the call
    found the target, and otherwise leaves the rest of the stack. *)
Lemma dfs_helper_sim g target fuel :
  ∀ v st b st',
    dfs_helper fuel g target v st = Returns (b, st') →
    ∃ k : nat, ∀ n stack,
      dfs_loop (k + n) g target st.1 (v :: stack) st.2 =
      if b then Returns st'.2 else dfs_loop n g target st'.1 stack st'.2.
Proof.
  induction fuel as [|fuel IH]; intros v st b st'; cbn [dfs_helper]; [done|].
  destruct (decide (v ∈ st.1)) as [Hvis|Hvis].
  { intros [= <- <-]. exists 1. intros n stack. cbn [dfs_loop Nat.add].
    by rewrite decide_True. }
  destruct (decide (target = Some v)) as [Ht|Ht].
  { intros [= <- <-]. exists 1. intros n stack. cbn [dfs_loop Nat.add].
    rewrite decide_False by done. by rewrite decide_True. }
  unfold subscript. destruct (dict_get _ v) as [ns|] eqn:Hns;
    outcome_simpl; [|done].
  intros Hr.
  assert (Hall : ∀ ns (X0 : gset V) st1, X0 ⊆ st1.1 →
            dfs_visit_all (dfs_helper fuel g target) ns st1 = Returns (b, st') →
            ∃ k : nat, ∀ n stack,
              dfs_loop (k + n) g target st1.1
                       (filter (λ n, n ∉ X0) ns ++ stack) st1.2 =
              if b then Returns st'.2 else dfs_loop n g target st'.1 stack st'.2).
  { clear Hr Hns ns. induction ns as [|m ns IHns]; intros X0 st1 HX0;
      cbn [dfs_visit_all].
    - intros [= <- <-]. by exists 0.
    - rewrite filter_cons. destruct (decide (m ∈ st1.1)) as [Hm|Hm].
      + intros (k & Hk)%(IHns X0); [|done].
        destruct (decide (m ∉ X0)); [|by exists k].
        exists (S k). intros n0 stack. cbn [app dfs_loop Nat.add].
        rewrite decide_True by done. apply Hk.
      + rewrite decide_True by set_solver.
        destruct (dfs_helper fuel g target m st1) as [[b1 st2]| |] eqn:E;
          outcome_simpl; try done.
        destruct (IH _ _ _ _ E) as (k1 & Hk1). destruct b1.
        * intros [= <- <-]. exists k1. intros n0 stack. apply Hk1.
        * intros (k2 & Hk2)%(IHns X0);
            [|by etrans; [|eapply dfs_helper_mono]].
          exists (k1 + k2). intros n0 stack. cbn [app].
          rewrite <-Nat.add_assoc, Hk1. apply Hk2. }
  destruct (Hall ns ({[v]} ∪ st.1) ({[v]} ∪ st.1, st.2 ++ [v])) as (k & Hk);
    [done..|].
  exists (S k). intros n stack. cbn [dfs_loop Nat.add].
  rewrite decide_False by done. rewrite decide_False by done.
  unfold subscript. rewrite Hns. outcome_simpl.
  rewrite push_unvisited_filter. apply Hk.
Qed.

Lemma dfs_loop_returns g target :
  wf_graph g →
  ∀ fuel visited stack result,
    (∀ v, v ∈ stack → has_vertex g v = true) →
    length stack + unvisited_degree visited (adjacency_list g) ≤ fuel →
    ∃ l, dfs_loop fuel g target visited stack result = Returns l.
Proof.
  intros Hwf. induction fuel as [|fuel IH]; intros visited stack result Hst Hfuel;
    destruct stack as [|v stack]; cbn [length] in Hfuel; try lia;
    cbn [dfs_loop]; [by eauto..|].
  destruct (decide (v ∈ visited)) as [Hvis|Hvis].
  { apply IH; [|lia]. intros w Hw. apply Hst. by right. }
  case_decide; [by eauto|].
  destruct (has_vertex_subscript g v) as [ns Hns]; [apply Hst; left|].
  unfold subscript. rewrite Hns. outcome_simpl.
  apply IH.
  - intros w [Hw|Hw]%elem_of_push_unvisited.
    + apply Hst. by right.
    + rewrite elem_of_reverse in Hw.
      apply (wf_closed g Hwf v). by rewrite (neighbors_subscript g v ns).
  - pose proof (length_push_unvisited ({[v]} ∪ visited) (reverse ns) stack) as Hl.
    rewrite length_reverse in Hl.
    pose proof (unvisited_degree_visit _ visited v ns Hvis Hns). lia.
Qed.

(** The result of the loop of [dfs] does not depend on the fuel it is given,
    once the fuel is enough. *)
Lemma dfs_loop_fuel g target (k : nat) :
  ∀ fuel visited stack result l,
    dfs_loop fuel g target visited stack result = Returns l →
    dfs_loop (k + fuel) g target visited stack result = Returns l.
Proof.
  intros fuel. replace (k + fuel) with (fuel + k) by lia.
  induction fuel as [|fuel IH]; intros visited stack result l;
    destruct stack as [|v stack]; cbn [dfs_loop Nat.add]; try done.
  - by destruct k.
  - case_decide; [apply IH|]. case_decide; [done|].
    destruct (subscript _ v); outcome_simpl; [|done..].
    apply IH.
Qed.

(** C2: for every graph, start vertex and optional target, [dfs] and
    [dfs_recursive] return the same sequence of vertices, in the same
    order. *)
Theorem dfs_equivalence g start (target : option V) :
  Built g →
  ∃ l, dfs g start target = Returns l ∧ dfs_recursive g start target = Returns l.
Proof.
  intros Hb. pose proof (Built_wf g Hb) as Hwf.
  unfold dfs, dfs_recursive.
  destruct (dict_in start (adjacency_list g)) eqn:Hs; [|by eauto].
  destruct (dfs_helper_returns g target Hwf (loop_bound g) start (∅, []))
    as (b & [X res] & Hrec); [done| |].
  { cbn [fst]. pose proof (unvisited_count_le (adjacency_list g) ∅).
    unfold loop_bound. lia. }
  destruct (dfs_loop_returns g target Hwf (loop_bound g) ∅ [start] [])
    as (l & Hit).
  { by intros v ->%list_elem_of_singleton. }
  { cbn [length]. apply unvisited_degree_empty. }
  exists l. split; [done|]. rewrite Hrec. outcome_simpl.
  f_equal.
  destruct (dfs_helper_sim _ _ _ _ _ _ _ Hrec) as (k & Hk).
  specialize (Hk (loop_bound g) []). cbn [fst snd] in Hk.
  rewrite (dfs_loop_fuel g target k _ _ _ _ _ Hit) in Hk.
  destruct b; [congruence|].
  destruct (loop_bound g); cbn [dfs_loop] in Hk; congruence.
Qed.

(** ** Paths *)

Lemma is_path_singleton g v : is_path g v v [v].
Proof. by repeat split. Qed.

Lemma chain_snoc g l p v :
  chain g l → last l = Some p → edge g p v → chain g (l ++ [v]).
Proof.
  intros Hc Hl He. induction l as [|a [|b l] IH]; [done| |].
  - injection Hl as ->. by split.
  - destruct Hc as [Hab Hc]. split; [done|]. apply IH; [done|].
    by rewrite last_cons_cons in Hl.
Qed.

Lemma is_path_snoc g s p v l :
  is_path g s p l → edge g p v → is_path g s v (l ++ [v]).
Proof.
  intros (Hh & Hl & Hc) He. split_and!.
  - by destruct l.
  - apply last_snoc.
  - by eapply chain_snoc.
Qed.

Lemma is_path_nsteps g s t p :
  is_path g s t p → nsteps (edge g) (length p - 1) s t.
Proof.
  revert s. induction p as [|a [|b l] IH]; intros s (Hh & Hl & Hc); [done| |].
  - injection Hh as ->. injection Hl as ->. apply nsteps_O.
  - injection Hh as <-. destruct Hc as [Hab Hc].
    rewrite last_cons_cons in Hl.
    specialize (IH b (conj eq_refl (conj Hl Hc))).
    replace (length (a :: b :: l) - 1) with (S (length (b :: l) - 1))
      by (cbn [length]; lia).
    by eapply nsteps_l.
Qed.

Lemma chain_lookup g p (i : nat) u v :
  chain g p → p !! i = Some u → p !! S i = Some v → edge g u v.
Proof.
  revert i. induction p as [|a [|b l] IH]; intros i Hc Hu Hv; [done| |].
  - by destruct i.
  - destruct Hc as [Hab Hc]. destruct i as [|i].
    + injection Hu as ->. injection Hv as ->. done.
    + by apply (IH i).
Qed.

(** ** Shortest path by breadth-first search *)

(** The climb over the parent links returns the tree path, reversed. *)
Lemma walk_parents_spec g start depth visited parent :
  tree_inv g start depth visited parent →
  ∀ (n : nat) v fuel acc,
    v ∈ visited → depth v = n → n < fuel →
    ∃ up, walk_parents fuel parent (Some v) acc = Returns (acc ++ up) ∧
          length up = S n ∧ is_path g start v (reverse up).
Proof.
  intros [T1 T2 T3 T4 T5 T6 T7].
  induction n as [|n IH]; intros v fuel acc Hv Hd Hfuel;
    (destruct fuel as [|fuel]; [lia|]); cbn [walk_parents].
  - destruct (decide (v = start)) as [->|Hne].
    + rewrite T1. exists [start]. destruct fuel; split_and!; try done;
        apply is_path_singleton.
    + destruct (T4 v Hv Hne) as (p & _ & _ & _ & Hdp). lia.
  - destruct (decide (v = start)) as [->|Hne]; [lia|].
    destruct (T4 v Hv Hne) as (p & Hp & Hpv & He & Hdp). rewrite Hp.
    destruct (IH p fuel (acc ++ [v]) Hpv ltac:(lia) ltac:(lia))
      as (up & Hw & Hlen & Hpath).
    exists (v :: up). split_and!.
    + by rewrite Hw, <-app_assoc.
    + cbn [length]. lia.
    + rewrite reverse_cons. by eapply is_path_snoc.
Qed.

Lemma tree_inv_insert g start depth visited parent u w :
  tree_inv g start depth visited parent →
  u ∈ visited → w ∉ visited → edge g u w → has_vertex g w = true →
  tree_inv g start (set_depth depth w (S (depth u)))
           ({[w]} ∪ visited) (<[w := Some u]> parent).
Proof.
  intros [T1 T2 T3 T4 T5 T6 T7] Hu Hw He Hvw.
  assert (Hd : ∀ v, v ∈ visited → set_depth depth w (S (depth u)) v = depth v).
  { intros v Hv. unfold set_depth. rewrite decide_False; [done|]. by intros ->. }
  split.
  - rewrite lookup_insert_ne; [done|]. by intros ->.
  - set_solver.
  - by rewrite Hd.
  - intros v [->%elem_of_singleton|Hv]%elem_of_union Hne.
    + exists u. rewrite lookup_insert_eq, (Hd u Hu). split_and!; [done|set_solver|done|].
      unfold set_depth. by rewrite decide_True.
    + destruct (T4 v Hv Hne) as (p & Hp & Hpv & Hpe & Hdp). exists p.
      rewrite lookup_insert_ne by (by intros ->).
      rewrite (Hd v Hv), (Hd p Hpv). split_and!; [done|set_solver|done..].
  - intros v Hv. rewrite lookup_insert_ne by set_solver. apply T5. set_solver.
  - intros v Hv. rewrite map_size_insert_None by auto.
    apply elem_of_union in Hv as [->%elem_of_singleton|Hv].
    + unfold set_depth. rewrite decide_True by done. specialize (T6 u Hu). lia.
    + rewrite (Hd v Hv). specialize (T6 v Hv). lia.
  - intros v [->%elem_of_singleton|Hv]%elem_of_union; auto.
Qed.

(** While the neighbours of a vertex of level [k] are scanned, a walk that
    is shorter than [k + 1] edges ends at a visited vertex whose level is at
    most the length of the walk. *)
Lemma scan_inv_walks g start target depth vertex todo visited queue parent :
  scan_inv g start target depth vertex todo visited queue parent →
  ∀ (n : nat) v, nsteps (edge g) n start v →
    S (depth vertex) ≤ n ∨ (v ∈ visited ∧ depth v ≤ n).
Proof.
  intros [[T1 T2 T3 T4 T5 T6 T7] I2 I3 I4 I5 I6 I7 (q1 & q2 & -> & Hq1 & Hq2) I9].
  induction n as [|n IH]; intros v Hn.
  - inversion Hn; subst. right. split; [done|lia].
  - apply nsteps_inv_r in Hn as (y & Hn & Hyv).
    destruct (IH y Hn) as [?|[Hy Hdy]]; [left; lia|].
    destruct (decide (depth vertex ≤ n)); [left; lia|right].
    destruct (I7 y Hy) with (w := v) as [Hv Hdv]; [| |done|split; [done|lia]].
    + intros ->. lia.
    + intros [Hin|Hin]%elem_of_app.
      * specialize (Hq1 y Hin). lia.
      * specialize (Hq2 y Hin). lia.
Qed.

Lemma bfs_path_scan_spec g start target :
  wf_graph g → (∀ v, has_vertex g v = true → is_None v = false) →
  ∀ todo depth vertex visited queue parent,
    scan_inv g start target depth vertex todo visited queue parent →
    ∃ r, bfs_path_scan target vertex todo (visited, queue, parent) = Returns r ∧
      match r with
      | inl p => is_path g start target p ∧
                 ∀ n : nat, nsteps (edge g) n start target → length p ≤ S n
      | inr st =>
          (∃ depth', scan_inv g start target depth' vertex [] st.1.1 st.1.2 st.2) ∧
          length st.1.2 + unvisited_count st.1.1 (adjacency_list g)
          ≤ length queue + unvisited_count visited (adjacency_list g)
      end.
Proof.
  intros Hwf Hnone. induction todo as [|w todo IH];
    intros depth vertex visited queue parent Hinv; cbn [bfs_path_scan fst snd].
  { exists (inr (visited, queue, parent)). split; [done|]. split; [by eauto|done]. }
  destruct (decide (w ∈ visited)) as [Hw|Hw].
  { apply IH with depth. destruct Hinv as [I1 I2 I3 I4 I5 I6 I7 I8 I9].
    split; try done.
    - intros x Hx. apply I5. by right.
    - intros x Hx. destruct (I6 x Hx) as [|[->|]%elem_of_cons]; auto. }
  assert (Hew : edge g vertex w) by (apply (scan_todo _ _ _ _ _ _ _ _ _ Hinv); left).
  assert (Hvw : has_vertex g w = true).
  { apply (wf_closed g Hwf vertex). by apply edge_neighbors. }
  pose proof (tree_inv_insert g start depth visited parent vertex w
                (scan_tree _ _ _ _ _ _ _ _ _ Hinv)
                (scan_vertex _ _ _ _ _ _ _ _ _ Hinv) Hw Hew Hvw) as Htree.
  assert (Hd : ∀ v, v ∈ visited → set_depth depth w (S (depth vertex)) v = depth v).
  { intros v Hv. unfold set_depth. rewrite decide_False; [done|]. by intros ->. }
  assert (Hdw : set_depth depth w (S (depth vertex)) w = S (depth vertex)).
  { unfold set_depth. by rewrite decide_True. }
  rewrite (py_value_Some vertex), (py_value_Some w);
    [|by apply Hnone|
     apply Hnone, (tree_vertices _ _ _ _ _ (scan_tree _ _ _ _ _ _ _ _ _ Hinv)),
       (scan_vertex _ _ _ _ _ _ _ _ _ Hinv)].
  destruct (decide (w = target)) as [->|Hwt].
  - destruct (walk_parents_spec _ _ _ _ _ Htree (S (depth vertex)) target
                (size (<[target := Some vertex]> parent)) [])
      as (up & Hup & Hlen & Hpath); [set_solver|done| |].
    { rewrite <-Hdw. apply (tree_depth_bound _ _ _ _ _ Htree). set_solver. }
    rewrite Hup. cbn [mbind outcome_mbind outcome_bind app].
    exists (inl (reverse up)). split; [done|]. split; [done|].
    intros n Hn. rewrite length_reverse, Hlen.
    destruct (scan_inv_walks _ _ _ _ _ _ _ _ _ Hinv n target Hn) as [?|[Hin _]];
      [lia|]. by destruct (scan_target _ _ _ _ _ _ _ _ _ Hinv).
  - destruct (IH (set_depth depth w (S (depth vertex))) vertex
                ({[w]} ∪ visited) (queue ++ [w]) (<[w := Some vertex]> parent))
      as (r & Hr & Hspec).
    { destruct Hinv as [I1 I2 I3 I4 I5 I6 I7 (q1 & q2 & -> & Hq1 & Hq2) I9].
      split.
      - done.
      - set_solver.
      - set_solver.
      - intros v [Hv| ->%list_elem_of_singleton]%elem_of_app; set_solver.
      - intros x Hx. apply I5. by right.
      - intros x Hx. destruct (I6 x Hx) as [|[->|]%elem_of_cons]; set_solver.
      - intros v Hv Hne Hnq x Hx.
        assert (v ≠ w) by (intros ->; apply Hnq; set_solver).
        assert (Hv' : v ∈ visited) by set_solver.
        destruct (I7 v Hv' Hne) with (w := x) as [Hx1 Hx2]; [set_solver|done|].
        rewrite (Hd v Hv'), (Hd x Hx1). split; [set_solver|done].
      - exists q1, (q2 ++ [w]). rewrite (Hd vertex I3). split_and!.
        + by rewrite app_assoc.
        + intros v Hv. rewrite Hd; [auto|]. apply I4. set_solver.
        + intros v [Hv| ->%list_elem_of_singleton]%elem_of_app; [|done].
          rewrite Hd; [auto|]. apply I4. set_solver.
      - intros v [->%elem_of_singleton|Hv]%elem_of_union; rewrite (Hd vertex I3).
        + by rewrite Hdw.
        + rewrite (Hd v Hv). auto. }
    exists r. split; [done|]. destruct r as [p|[[X' Q'] P']]; [done|].
    destruct Hspec as [Hex Hm]. split; [done|]. cbn [fst snd] in *.
    apply has_vertex_keys in Hvw.
    pose proof (unvisited_count_visit (adjacency_list g) visited w Hvw Hw).
    rewrite length_app in Hm. cbn [length] in Hm. lia.
Qed.

Lemma bfs_path_loop_spec g start target :
  wf_graph g → (∀ v, has_vertex g v = true → is_None v = false) →
  ∀ fuel depth visited queue parent,
    loop_inv g start target depth visited queue parent →
    length queue + unvisited_count visited (adjacency_list g) ≤ fuel →
    ∃ r, bfs_path_loop fuel g target (visited, queue, parent) = Returns r ∧
      match r with
      | Some p => is_path g start target p ∧
                  ∀ n : nat, nsteps (edge g) n start target → length p ≤ S n
      | None => ¬ rtc (edge g) start target
      end.
Proof.
  intros Hwf Hnone. induction fuel as [|fuel IH];
    intros depth visited queue parent Hinv Hfuel;
    destruct queue as [|u queue]; cbn [length] in Hfuel; try lia;
    cbn [bfs_path_loop fst snd].
  1,2: (exists None; split; [done|];
    destruct Hinv as [[T1 T2 T3 T4 T5 T6 T7] L2 L3 L4 L5]; intros Hr;
    apply L2; revert Hr; generalize target; apply rtc_ind_r; [done|];
    intros y z _ Hyz Hy; by apply (L4 y Hy (not_elem_of_nil _) z)).
  pose proof Hinv as [L1 L2 L3 L4 (k & q1 & q2 & Hq & Hq1 & Hq2 & Hk)].
  assert (Hu : u ∈ visited) by (apply L3; left).
  destruct (has_vertex_subscript g u) as [ns Hns];
    [by apply (tree_vertices _ _ _ _ _ L1)|].
  unfold subscript. rewrite Hns. outcome_simpl.
  destruct (bfs_path_scan_spec g start target Hwf Hnone ns depth u visited queue parent)
    as (r & Hr & Hspec).
  { split; try done.
    - intros v Hv. apply L3. by right.
    - intros w Hw. apply edge_neighbors. by rewrite (neighbors_subscript g u ns).
    - intros w Hw. right. apply edge_neighbors in Hw.
      by rewrite (neighbors_subscript g u ns) in Hw.
    - intros v Hv Hne Hnq. apply L4; [done|].
      intros [->|?]%elem_of_cons; done.
    - destruct q1 as [|a q1]; cbn [app] in Hq.
      + subst q2. exists queue, []. rewrite app_nil_r. split_and!; [done| |].
        * intros v Hv. rewrite (Hq2 u), (Hq2 v); [done|by right|left].
        * intros v Hv. by apply elem_of_nil in Hv.
      + injection Hq as <- ->. exists q1, q2.
        rewrite (Hq1 u) by left. split_and!; [done| |done].
        intros v Hv. apply Hq1. by right.
    - intros v Hv. specialize (Hk v Hv).
      destruct q1 as [|a q1]; cbn [app] in Hq.
      + subst q2. rewrite (Hq2 u) by left. lia.
      + injection Hq as <- ->. by rewrite (Hq1 u) by left. }
  rewrite Hr. outcome_simpl.
  destruct r as [p|[[X' Q'] P']]; [by exists (Some p)|].
  destruct Hspec as [(depth' & Hs) Hm]. cbn [fst snd] in *.
  apply (IH depth'); [|lia].
  destruct Hs as [I1 I2 I3 I4 I5 I6 I7 (r1 & r2 & -> & Hr1 & Hr2) I9].
  split; try done.
  - intros v Hv Hnq w Hw. destruct (decide (v = u)) as [->|Hne]; [|by apply I7].
    destruct (I6 w Hw) as [Hin|Hin%elem_of_nil]; [|done]. auto.
  - exists (depth' u), r1, r2. done.
Qed.

(** What [bfs_path] returns on a well-formed graph none of whose vertices is
    [None]. *)
Lemma bfs_path_spec g start target :
  wf_graph g → (∀ v, has_vertex g v = true → is_None v = false) →
  ∃ r, bfs_path g start target = Returns r ∧
    match r with
    | Some p => is_path g start target p ∧
                ∀ n : nat, nsteps (edge g) n start target → length p ≤ S n
    | None => has_vertex g start = false ∨ has_vertex g target = false ∨
              ¬ rtc (edge g) start target
    end.
Proof.
  intros Hwf Hnone. unfold bfs_path. fold (has_vertex g start) (has_vertex g target).
  destruct (has_vertex g start) eqn:Hs; [|exists None; auto].
  destruct (has_vertex g target) eqn:Ht; [|exists None; auto].
  cbn [negb orb]. destruct (decide (start = target)) as [->|Hne].
  { exists (Some [target]). split; [done|]. split; [apply is_path_singleton|].
    intros n _. cbn [length]. lia. }
  destruct (bfs_path_loop_spec g start target Hwf Hnone (loop_bound g) (λ _, 0)
              {[start]} [start] {[start := None]}) as (r & Hr & Hspec).
  - split.
    + split.
      * apply lookup_singleton_eq.
      * set_solver.
      * done.
      * intros v ->%elem_of_singleton Hv. done.
      * intros v Hv. apply lookup_singleton_ne. set_solver.
      * intros v _. rewrite map_size_singleton. lia.
      * by intros v ->%elem_of_singleton.
    + set_solver.
    + set_solver.
    + intros v ->%elem_of_singleton Hv. destruct Hv. left.
    + exists 0, [start], []. split_and!; [done..| |].
      * intros v Hv. by apply elem_of_nil in Hv.
      * intros; lia.
  - pose proof (unvisited_count_le (adjacency_list g) {[start]}).
    unfold loop_bound. cbn [length]. lia.
  - exists r. split; [done|]. destruct r; auto.
Qed.

(** X21: on a graph none of whose vertices is [None], when [target] can be
    reached from [start], [bfs_path] returns a path from [start] to [target]
    whose number of edges, its length minus one, is the least number of edges
    of any path between them. *)
Theorem bfs_path_shortest g start target :
  Built g → (∀ v, has_vertex g v = true → is_None v = false) →
  has_vertex g start = true → has_vertex g target = true →
  rtc (edge g) start target →
  ∃ p, bfs_path g start target = Returns (Some p) ∧
       is_path g start target p ∧
       nsteps (edge g) (length p - 1) start target ∧
       ∀ n : nat, nsteps (edge g) n start target → length p - 1 ≤ n.
Proof.
  intros Hb Hnone Hs Ht Hreach.
  destruct (bfs_path_spec g start target (Built_wf g Hb) Hnone)
    as ([p|] & Hr & Hspec).
  - destruct Hspec as [Hpath Hmin]. exists p. split_and!; [done..| |].
    + by apply is_path_nsteps.
    + intros n Hn. specialize (Hmin n Hn). lia.
  - destruct Hspec as [?|[?|?]]; [congruence..|done].
Qed.

(** X22: on a graph none of whose vertices is [None], a list returned by
    [bfs_path(start, target)] is a path of the graph: it begins with
    [start], ends with [target], and [has_edge] holds of every two
    consecutive elements. *)
Theorem bfs_path_valid g start target p :
  Built g → (∀ v, has_vertex g v = true → is_None v = false) →
  bfs_path g start target = Returns (Some p) →
  head p = Some start ∧ last p = Some target ∧
  ∀ (i : nat) u v, p !! i = Some u → p !! S i = Some v → has_edge g u v = true.
Proof.
  intros Hb Hnone Hp.
  destruct (bfs_path_spec g start target (Built_wf g Hb) Hnone)
    as (r & Hr & Hspec).
  rewrite Hp in Hr. injection Hr as <-. destruct Hspec as [(Hh & Hl & Hc) _].
  split_and!; [done..|]. intros i u v. by apply chain_lookup.
Qed.

(** ** Absent vertices *)

(** C8: for every graph, on an absent start vertex [bfs], [dfs] and
    [dfs_recursive] return the empty sequence, and [bfs_path] returns [None]
    when its start or its target is absent; and [bfs_path(start, start)] is
    [[start]] for a vertex of the graph. *)
Theorem absent_vertices g (start other : V) (target : option V) :
  (has_vertex g start = false →
   bfs g start target = Returns [] ∧
   dfs g start target = Returns [] ∧
   dfs_recursive g start target = Returns [] ∧
   bfs_path g start other = Returns None ∧
   bfs_path g other start = Returns None) ∧
  (has_vertex g start = true →
   bfs_path g start start = Returns (Some [start])).
Proof.
  unfold has_vertex, bfs, dfs, dfs_recursive, bfs_path. split; intros Hs.
  - rewrite Hs. cbn [negb orb]. by rewrite orb_true_r.
  - rewrite Hs. cbn [negb orb]. by rewrite decide_True.
Qed.

End graph_facts.

(** ** The scenarios of the specification *)

Lemma scenario1_Built : Built scenario1.
Proof. unfold scenario1. repeat apply Built_add_edge. apply Built_empty. Qed.

Example scenario1_adjacency :
  adjacency_list scenario1 =
  [("A", ["B"; "C"]); ("B", ["A"; "D"; "E"]); ("C", ["A"; "F"]);
   ("D", ["B"]); ("E", ["B"; "F"]); ("F", ["C"; "E"])].
Proof. vm_compute. reflexivity. Qed.

(** C9: on the undirected graph built by [add_edge('A','B')],
    [add_edge('A','C')], [add_edge('B','D')], [add_edge('B','E')],
    [add_edge('C','F')], [add_edge('E','F')], [bfs('A')] returns
    [['A','B','C','D','E','F']] and [bfs_path('A','F')] returns
    [['A','C','F']]. *)
Theorem scenario1_bfs :
  bfs scenario1 "A" None = Returns ["A"; "B"; "C"; "D"; "E"; "F"] ∧
  bfs_path scenario1 "A" "F" = Returns (Some ["A"; "C"; "F"]).
Proof. split; vm_compute; reflexivity. Qed.

(** ** [None] as a vertex *)

Lemma none_end_graph_Built : Built none_end_graph.
Proof. apply Built_add_edge, Built_empty. Qed.

Lemma none_between_graph_Built : Built none_between_graph.
Proof. repeat apply Built_add_edge. apply Built_empty. Qed.

(** C1: the code does not return a shortest path when the path runs through
    a vertex that is [None].  After [add_edge('A', None)] and
    [add_edge(None, 'B')] both ['A'] and ['B'] are vertices, ['B'] can be
    reached from ['A'], every path between them has two edges or more, and
    [bfs_path('A', 'B')] returns [['B']], whose length minus one is 0. *)
Theorem bfs_path_through_None :
  has_vertex none_between_graph (Some "A") = true ∧
  has_vertex none_between_graph (Some "B") = true ∧
  rtc (edge none_between_graph) (Some "A") (Some "B") ∧
  (∀ n : nat, nsteps (edge none_between_graph) n (Some "A") (Some "B") → 2 ≤ n) ∧
  bfs_path none_between_graph (Some "A") (Some "B") = Returns (Some [Some "B"]).
Proof.
  split_and!; try (vm_compute; reflexivity).
  - apply rtc_l with None; [vm_compute; reflexivity|].
    apply rtc_once. vm_compute. reflexivity.
  - intros [|[|n]] Hn; [| |lia].
    + inversion Hn.
    + apply nsteps_once_inv in Hn. vm_compute in Hn. discriminate.
Qed.

(** C10: the list the code returns is not a path when an end of it is a
    vertex that is [None].  After [add_edge('A', None)],
    [bfs_path('A', None)] returns [[]], which has no first and no last
    element, and [bfs_path(None, 'A')] returns [['A']], which does not begin
    with the start vertex. *)
Theorem bfs_path_to_None :
  has_vertex none_end_graph (Some "A") = true ∧
  has_vertex none_end_graph None = true ∧
  bfs_path none_end_graph (Some "A") None = Returns (Some []) ∧
  bfs_path none_end_graph None (Some "A") = Returns (Some [Some "A"]) ∧
  head [Some "A"] ≠ Some (@None string).
Proof. split_and!; try (vm_compute; reflexivity). discriminate. Qed.

Example scenario2_dfs :
  dfs scenario1 "A" None = Returns ["A"; "B"; "D"; "E"; "F"; "C"] ∧
  dfs_recursive scenario1 "A" None = Returns ["A"; "B"; "D"; "E"; "F"; "C"].
Proof. split; vm_compute; reflexivity. Qed.

Example scenario1_edges :
  get_edges scenario1 =
  [("A", "B"); ("A", "C"); ("B", "D"); ("B", "E"); ("C", "F"); ("E", "F")].
Proof. vm_compute. reflexivity. Qed.

Example scenario3_directed :
  bfs scenario3 "A" None = Returns ["A"; "B"; "C"; "D"; "E"] ∧
  get_edges scenario3 =
  [("A", "B"); ("A", "C"); ("B", "D"); ("C", "D"); ("D", "E")].
Proof. split; vm_compute; reflexivity. Qed.

Example scenario4_absent_target : bfs_path scenario1 "A" "Z" = Returns None.
Proof. vm_compute. reflexivity. Qed.

Example scenario5_remove_vertex :
  let g := remove_vertex scenario1 "B" in
  has_edge g "A" "B" = false ∧ has_edge g "E" "B" = false ∧
  get_neighbors g "A" = ["C"].
Proof. repeat split; vm_compute; reflexivity. Qed.

(** ** The theorems at concrete inputs *)

Lemma bfs_path_shortest_witness :
  ∃ p, bfs_path scenario1 "A" "F" = Returns (Some p) ∧
       is_path scenario1 "A" "F" p ∧
       nsteps (edge scenario1) (length p - 1) "A" "F" ∧
       ∀ n : nat, nsteps (edge scenario1) n "A" "F" → length p - 1 ≤ n.
Proof.
  apply (bfs_path_shortest scenario1 "A" "F").
  - exact scenario1_Built.
  - intros v _. reflexivity.
  - vm_compute. reflexivity.
  - vm_compute. reflexivity.
  - apply rtc_l with "C"; [vm_compute; reflexivity|].
    apply rtc_once. vm_compute. reflexivity.
Defined.

Lemma dfs_equivalence_witness :
  ∃ l, dfs scenario1 "A" (Some "F") = Returns l ∧
       dfs_recursive scenario1 "A" (Some "F") = Returns l.
Proof. apply (dfs_equivalence scenario1 "A" (Some "F")). exact scenario1_Built. Defined.

Lemma bfs_complete_witness :
  ∃ l, bfs scenario1 "A" None = Returns l ∧ NoDup l ∧
       ∀ v, v ∈ l ↔ rtc (edge scenario1) "A" v.
Proof.
  apply (bfs_complete scenario1 "A").
  - exact scenario1_Built.
  - vm_compute. reflexivity.
Defined.

Lemma undirected_symmetry_witness :
  (∀ nu nv, dict_get (adjacency_list scenario1) "A" = Some nu →
            dict_get (adjacency_list scenario1) "B" = Some nv →
            ("B" ∈ nu ↔ "A" ∈ nv)) ∧
  has_edge scenario1 "A" "B" = has_edge scenario1 "B" "A".
Proof.
  apply (undirected_symmetry scenario1 "A" "B").
  - exact scenario1_Built.
  - vm_compute. reflexivity.
Defined.

Lemma no_duplicate_neighbors_witness :
  (∀ u, NoDup (get_neighbors scenario1 u)) ∧
  (∀ u v w, get_neighbors (add_edge (add_edge scenario1 u v) u v) w
            = get_neighbors (add_edge scenario1 u v) w) ∧
  (∀ u, directed scenario1 = false →
        length (filter (λ y, y = u) (get_neighbors (add_edge scenario1 u u) u)) = 1).
Proof. apply (no_duplicate_neighbors scenario1). exact scenario1_Built. Defined.

Lemma remove_vertex_cascade_witness :
  has_vertex (remove_vertex scenario1 "B") "B" = false ∧
  (∀ u, "B" ∉ get_neighbors (remove_vertex scenario1 "B") u) ∧
  (has_vertex scenario1 "B" = false → remove_vertex scenario1 "B" = scenario1).
Proof. apply (remove_vertex_cascade scenario1 "B"). exact scenario1_Built. Defined.

Lemma get_edges_undirected_once_witness :
  (∀ u v, edge scenario1 u v →
     length (filter (λ e, e = (u, v) ∨ e = (v, u)) (get_edges scenario1)) = 1) ∧
  (∀ u v, (u, v) ∈ get_edges scenario1 → edge scenario1 u v).
Proof.
  apply (get_edges_undirected_once scenario1).
  - apply (wf_keys _ (Built_wf _ scenario1_Built)).
  - apply (wf_nodup _ (Built_wf _ scenario1_Built)).
  - vm_compute. reflexivity.
Defined.

Lemma absent_vertices_witness :
  bfs scenario1 "Z" (Some "A") = Returns [] ∧
  dfs scenario1 "Z" (Some "A") = Returns [] ∧
  dfs_recursive scenario1 "Z" (Some "A") = Returns [] ∧
  bfs_path scenario1 "Z" "B" = Returns None ∧
  bfs_path scenario1 "B" "Z" = Returns None ∧
  bfs_path scenario1 "A" "A" = Returns (Some ["A"]).
Proof.
  destruct (absent_vertices scenario1 "Z" "B" (Some "A")) as [Habsent _].
  destruct (absent_vertices scenario1 "A" "B" (Some "A")) as [_ Hpresent].
  destruct Habsent as (H1 & H2 & H3 & H4 & H5); [vm_compute; reflexivity|].
  split_and!; [done..|]. apply Hpresent. vm_compute. reflexivity.
Defined.

Lemma bfs_path_valid_witness :
  head ["A"; "C"; "F"] = Some "A" ∧ last ["A"; "C"; "F"] = Some "F" ∧
  ∀ (i : nat) u v, ["A"; "C"; "F"] !! i = Some u →
                   ["A"; "C"; "F"] !! S i = Some v →
                   has_edge scenario1 u v = true.
Proof.
  apply (bfs_path_valid scenario1 "A" "F" ["A"; "C"; "F"]).
  - exact scenario1_Built.
  - intros v _. reflexivity.
  - vm_compute. reflexivity.
Defined.

(** * Further properties of the mutation API and of the queries *)

Section mutation_facts.
Context {V : Type} `{Countable V}.
Implicit Types (g : Graph V) (d : list (V * list V)) (u v w a b : V).

(** Two adjacency stores with the same keys, in the same order, and the same
    list at every key are the same store. *)
Lemma dict_ext d d' :
  d.*1 = d'.*1 → NoDup d.*1 →
  (∀ k, default [] (dict_get d k) = default [] (dict_get d' k)) → d = d'.
Proof.
  revert d'. induction d as [|[k ns] d IH]; intros [|[k' ns'] d'];
    csimpl; intros Hk Hnd Hget; try done.
  injection Hk as <- Hk. apply NoDup_cons in Hnd as [Hnk Hnd].
  pose proof (Hget k) as Hns. rewrite !decide_True in Hns by done.
  simpl in Hns. subst ns'. f_equal. apply IH; [done..|].
  intros k0. destruct (decide (k0 = k)) as [->|Hne].
  - assert (Hnk' : k ∉ d'.*1) by (by rewrite <-Hk).
    apply dict_get_None in Hnk, Hnk'. by rewrite Hnk, Hnk'.
  - specialize (Hget k0). by rewrite !decide_False in Hget.
Qed.

Lemma graph_ext g g' :
  directed g = directed g' → get_vertices g = get_vertices g' →
  NoDup (get_vertices g) →
  (∀ u, get_neighbors g u = get_neighbors g' u) → g = g'.
Proof.
  destruct g as [d b], g' as [d' b']. unfold get_vertices, get_neighbors.
  cbn [adjacency_list directed]. intros -> Hk Hnd Hn. f_equal.
  by apply dict_ext.
Qed.

Lemma with_adjacency_same g : with_adjacency g (adjacency_list g) = g.
Proof. by destruct g. Qed.

Lemma append_if_absent_present (x k : V) d :
  x ∈ default [] (dict_get d k) → append_if_absent x k d = d.
Proof.
  unfold append_if_absent. destruct (dict_get d k) as [ns|]; [|done].
  simpl. intros Hx. by rewrite decide_True.
Qed.

Lemma remove_if_present_absent (x k : V) d :
  x ∉ default [] (dict_get d k) → remove_if_present x k d = d.
Proof.
  unfold remove_if_present. destruct (dict_get d k) as [ns|]; [|done].
  simpl. intros Hx. by rewrite decide_False.
Qed.

Lemma add_vertex_present g v : has_vertex g v = true → add_vertex g v = g.
Proof. unfold add_vertex, has_vertex. by intros ->. Qed.

Lemma list_remove_snoc (x : V) (l : list V) :
  x ∉ l → list_remove x (l ++ [x]) = l.
Proof.
  induction l as [|y l IH]; intros Hx; simpl.
  - by rewrite decide_True.
  - apply not_elem_of_cons in Hx as [? ?]. rewrite decide_False by done.
    f_equal. auto.
Qed.

Lemma list_remove_filter (x : V) (l : list V) :
  NoDup l → list_remove x l = filter (λ y, y ≠ x) l.
Proof.
  induction l as [|y l IH]; intros Hnd; [done|].
  apply NoDup_cons in Hnd as [Hy Hnd]. cbn [list_remove]. rewrite filter_cons.
  destruct (decide (x = y)) as [->|Hne].
  - rewrite decide_False by auto. clear IH Hnd.
    induction l as [|z l IH]; [done|]. apply not_elem_of_cons in Hy as [? ?].
    rewrite filter_cons, decide_True by done. f_equal. auto.
  - rewrite decide_True by auto. f_equal. auto.
Qed.

Lemma dict_del_keys_filter (k : V) d :
  NoDup d.*1 → (dict_del k d).*1 = filter (λ k', k' ≠ k) d.*1.
Proof.
  induction d as [|[k0 ns] d IH]; intros Hnd; [done|].
  csimpl in *. apply NoDup_cons in Hnd as [Hk0 Hnd]. rewrite filter_cons. cbn [fst].
  destruct (decide (k = k0)) as [->|Hne].
  - rewrite decide_False by auto. clear IH Hnd.
    induction (d.*1) as [|z l IH]; [done|]. apply not_elem_of_cons in Hk0 as [? ?].
    rewrite filter_cons, decide_True by done. f_equal. auto.
  - rewrite decide_True by auto. csimpl. f_equal. auto.
Qed.

(** X1: [add_vertex(v)] puts a new vertex last, with no neighbour, leaves
    an existing vertex where it is, changes no neighbour sequence, and a
    second call changes nothing. *)
Theorem add_vertex_spec g v :
  get_vertices (add_vertex g v) =
    (if has_vertex g v then get_vertices g else get_vertices g ++ [v]) ∧
  (∀ u, get_neighbors (add_vertex g v) u = get_neighbors g u) ∧
  add_vertex (add_vertex g v) v = add_vertex g v.
Proof.
  split_and!.
  - apply get_vertices_add_vertex.
  - apply get_neighbors_add_vertex.
  - apply add_vertex_present, has_vertex_add_vertex. by right.
Qed.

(** X2: after [add_edge(a, b)] the edges are the old ones, [(a, b)], and in
    an undirected graph [(b, a)]; the vertices are the old ones, [a] and
    [b]. *)
Theorem add_edge_spec g a b :
  (∀ u w, has_edge (add_edge g a b) u w = true ↔
          has_edge g u w = true ∨ (u = a ∧ w = b) ∨
          (directed g = false ∧ u = b ∧ w = a)) ∧
  (∀ u, has_vertex (add_edge g a b) u = true ↔
        has_vertex g u = true ∨ u = a ∨ u = b).
Proof.
  split.
  - intros u w. rewrite !has_edge_neighbors, !bool_decide_eq_true.
    apply elem_of_neighbors_add_edge.
  - apply has_vertex_add_edge.
Qed.

(** X3: [add_edge] keeps the insertion order: every old neighbour sequence
    is a prefix of the new one, and so is the old vertex sequence. *)
Theorem add_edge_keeps_order g a b :
  (∀ u, get_neighbors g u `prefix_of` get_neighbors (add_edge g a b) u) ∧
  get_vertices g `prefix_of` get_vertices (add_edge g a b).
Proof.
  split.
  - intros u. rewrite get_neighbors_add_edge. cbv zeta.
    destruct (directed g); repeat case_decide; subst;
      rewrite <-?app_assoc; try done; by apply prefix_app_r.
  - rewrite get_vertices_add_edge, !get_vertices_add_vertex.
    destruct (has_vertex (add_vertex g a) b), (has_vertex g a);
      rewrite <-?app_assoc; try done; by apply prefix_app_r.
Qed.

(** X4: a second [add_edge(u, v)] leaves the whole graph as it is. *)
Theorem add_edge_idempotent g u v :
  add_edge (add_edge g u v) u v = add_edge g u v.
Proof.
  set (g1 := add_edge g u v).
  assert (Hu : has_vertex g1 u = true) by (apply has_vertex_add_edge; auto).
  assert (Hv : has_vertex g1 v = true) by (apply has_vertex_add_edge; auto).
  assert (Huv : v ∈ get_neighbors g1 u).
  { apply elem_of_neighbors_add_edge. auto. }
  unfold add_edge at 1. rewrite (add_vertex_present g1 u Hu), (add_vertex_present g1 v Hv).
  cbv zeta. rewrite (append_if_absent_present v u) by done.
  destruct (directed g1) eqn:Hd; [apply with_adjacency_same|].
  rewrite (append_if_absent_present u v); [apply with_adjacency_same|].
  apply elem_of_neighbors_add_edge. unfold g1 in Hd. rewrite directed_add_edge in Hd.
  auto.
Qed.

(** X5: on a graph built through the API, [remove_edge(a, b)] keeps the
    vertices and removes exactly the edge [(a, b)], and in an undirected
    graph [(b, a)]. *)
Theorem remove_edge_spec g a b :
  Built g →
  get_vertices (remove_edge g a b) = get_vertices g ∧
  ∀ u w, has_edge (remove_edge g a b) u w = true ↔
         has_edge g u w = true ∧ ¬ (u = a ∧ w = b) ∧
         ¬ (directed g = false ∧ u = b ∧ w = a).
Proof.
  intros Hb. split; [apply get_vertices_remove_edge|].
  intros u w. rewrite !has_edge_neighbors, !bool_decide_eq_true.
  apply neighbors_remove_edge_spec, (wf_nodup g (Built_wf g Hb)).
Qed.

(** X6: on a graph built through the API, [remove_edge] of an edge that is
    not there leaves the graph as it is. *)
Theorem remove_edge_missing g a b :
  Built g → has_edge g a b = false → remove_edge g a b = g.
Proof.
  intros Hb Hab. pose proof (Built_wf g Hb) as Hwf.
  rewrite has_edge_neighbors in Hab. apply bool_decide_eq_false in Hab.
  unfold remove_edge. rewrite (remove_if_present_absent b a) by done.
  destruct (directed g) eqn:Hd; [apply with_adjacency_same|].
  rewrite (remove_if_present_absent a b); [apply with_adjacency_same|].
  intros Hba. apply Hab. by apply (wf_sym g Hwf Hd).
Qed.

(** X7: on a graph built through the API that has both vertices and not the
    edge, [add_edge(u, v)] followed by [remove_edge(u, v)] gives the graph
    back, neighbour order included. *)
Theorem remove_edge_add_edge g u v :
  Built g → has_vertex g u = true → has_vertex g v = true →
  has_edge g u v = false →
  remove_edge (add_edge g u v) u v = g.
Proof.
  intros Hb Hu Hv Huv. pose proof (Built_wf g Hb) as Hwf.
  rewrite has_edge_neighbors in Huv. apply bool_decide_eq_false in Huv.
  apply graph_ext.
  - by rewrite directed_remove_edge, directed_add_edge.
  - rewrite get_vertices_remove_edge, get_vertices_add_edge.
    rewrite !get_vertices_add_vertex, Hu.
    assert (has_vertex (add_vertex g u) v = true) as ->; [|done].
    apply has_vertex_add_vertex. by left.
  - apply (wf_keys _ (Built_wf _ (Built_remove_edge _ u v (Built_add_edge _ u v Hb)))).
  - intros w. rewrite get_neighbors_remove_edge, directed_add_edge.
    rewrite !get_neighbors_add_edge. cbv zeta.
    destruct (directed g) eqn:Hd.
    + case_decide; subst; [|done]. rewrite decide_False by done.
      by apply list_remove_snoc.
    + assert (Hvu : u ∉ get_neighbors g v).
      { intros Hx. by apply Huv, (wf_sym g Hwf Hd). }
      destruct (decide (u = v)) as [->|Hne].
      * case_decide; subst; [|done].
        destruct (decide (v ∈ get_neighbors g v)); [done|].
        rewrite decide_True by (apply elem_of_app; right; left).
        rewrite list_remove_snoc by done. by apply list_remove_absent.
      * destruct (decide (w = u)) as [->|Hwu].
        -- destruct (decide (v ∈ get_neighbors g u)); [done|].
           rewrite !(decide_False (P := u = v)) by done.
           by apply list_remove_snoc.
        -- case_decide; subst; [|done].
           destruct (decide (u ∈ get_neighbors g v)); [done|].
           by apply list_remove_snoc.
Qed.

(** X8: on a graph built through the API, [remove_vertex(v)] keeps the other
    vertices and the other neighbours of each of them, in their order. *)
Theorem remove_vertex_keeps_rest g v :
  Built g →
  get_vertices (remove_vertex g v) = filter (λ u, u ≠ v) (get_vertices g) ∧
  ∀ u, u ≠ v →
    get_neighbors (remove_vertex g v) u = filter (λ w, w ≠ v) (get_neighbors g u).
Proof.
  intros Hb. pose proof (Built_wf g Hb) as [Hk Hn Hc Hs].
  destruct (has_vertex g v) eqn:Hv.
  - split.
    + unfold remove_vertex. unfold has_vertex in Hv. rewrite Hv.
      unfold get_vertices in *. cbn [adjacency_list with_adjacency].
      rewrite dict_del_keys_filter by (by rewrite purge_keys).
      by rewrite purge_keys.
    + intros u Hu. rewrite get_neighbors_remove_vertex by done.
      rewrite decide_False by done. by apply list_remove_filter.
  - rewrite remove_vertex_absent by done.
    assert (Hid : ∀ l : list V, v ∉ l → filter (λ u, u ≠ v) l = l).
    { induction l as [|y l IH]; [done|]. intros [? ?]%not_elem_of_cons.
      rewrite filter_cons, decide_True by done. f_equal. auto. }
    split.
    + rewrite Hid; [done|]. intros Hx%has_vertex_keys. congruence.
    + intros u _. rewrite Hid; [done|]. intros Hx%Hc. congruence.
Qed.

(** X9: on a graph built through the API, adding a vertex that is not there
    and removing it again gives the graph back. *)
Theorem remove_vertex_add_vertex g v :
  Built g → has_vertex g v = false → remove_vertex (add_vertex g v) v = g.
Proof.
  intros Hb Hv. pose proof (Built_wf g Hb) as Hwf.
  pose proof (Built_add_vertex g v Hb) as Hb1.
  destruct (remove_vertex_keeps_rest (add_vertex g v) v Hb1) as [Hk Hn].
  assert (Hid : ∀ l : list V, v ∉ l → filter (λ u, u ≠ v) l = l).
  { induction l as [|y l IH]; [done|]. intros [? ?]%not_elem_of_cons.
    rewrite filter_cons, decide_True by done. f_equal. auto. }
  assert (Hnv : ∀ u, v ∉ get_neighbors g u).
  { intros u Hx%(wf_closed g Hwf). congruence. }
  symmetry. apply graph_ext.
  - by rewrite directed_remove_vertex, directed_add_vertex.
  - rewrite Hk, get_vertices_add_vertex, Hv, filter_app, filter_cons.
    rewrite decide_False by auto. rewrite filter_nil, app_nil_r, Hid; [done|].
    intros Hx%has_vertex_keys. congruence.
  - apply (wf_keys g Hwf).
  - intros u. destruct (decide (u = v)) as [->|Hu].
    + rewrite get_neighbors_remove_vertex;
        [|apply (wf_keys _ (Built_wf _ Hb1))|apply has_vertex_add_vertex; by right].
      rewrite decide_True by done.
      unfold get_neighbors, has_vertex, dict_in in *.
      by destruct (dict_get (adjacency_list g) v).
    + rewrite Hn, get_neighbors_add_vertex, Hid by done. done.
Qed.

(** X10: on a graph built through the API the vertex sequence has no
    duplicate, and both ends of an edge are vertices. *)
Theorem edges_join_vertices g :
  Built g →
  NoDup (get_vertices g) ∧
  ∀ u v, has_edge g u v = true → has_vertex g u = true ∧ has_vertex g v = true.
Proof.
  intros Hb. pose proof (Built_wf g Hb) as [Hk Hn Hc Hs]. split; [done|].
  intros u v Huv. split.
  - unfold has_edge in Huv. unfold has_vertex, dict_in.
    by destruct (dict_get (adjacency_list g) u).
  - apply (Hc u). by apply edge_neighbors.
Qed.

(** X11: in an undirected graph [add_edge(u, v)] and [add_edge(v, u)] give
    the same neighbour sequences. *)
Theorem add_edge_undirected_swap g u v :
  directed g = false →
  ∀ w, get_neighbors (add_edge g u v) w = get_neighbors (add_edge g v u) w.
Proof.
  intros Hd w. rewrite !get_neighbors_add_edge, Hd. cbv zeta.
  destruct (decide (u = v)) as [->|Hne]; [done|].
  destruct (decide (w = u)) as [->|Hwu].
  - rewrite !(decide_False (P := u = v)) by done.
    by destruct (decide (v ∈ get_neighbors g u)).
  - destruct (decide (w = v)) as [->|Hwv]; [|done].
    by destruct (decide (u ∈ get_neighbors g v)).
Qed.

(** X12: in a directed graph built through the API, [get_edges()] lists
    every adjacency entry once, vertex by vertex in insertion order: its
    pairs are exactly the edges, none twice. *)
Theorem get_edges_directed g :
  Built g → directed g = true →
  get_edges g = (adjacency_list g ≫= λ e, pair e.1 <$> e.2) ∧
  NoDup (get_edges g) ∧
  ∀ u v, (u, v) ∈ get_edges g ↔ has_edge g u v = true.
Proof.
  intros Hb Hd. pose proof (Built_wf g Hb) as [Hk Hn Hc Hs].
  assert (He : get_edges g = (adjacency_list g ≫= λ e, pair e.1 <$> e.2)).
  { rewrite get_edges_flat, Hd.
    generalize (adjacency_list g ≫= λ e : V * list V, pair e.1 <$> e.2).
    intros ps. rewrite <-(app_nil_l ps) at 2. generalize (@nil (V * V)).
    induction ps as [|[x y] ps IH]; intros acc; simpl.
    - by rewrite app_nil_r.
    - by rewrite IH, <-app_assoc. }
  rewrite He. split_and!; [done| |].
  - apply NoDup_pairs; [done|]. intros k ns Hin.
    rewrite <-(neighbors_subscript g k ns); [apply Hn|].
    by apply elem_of_dict_get.
  - intros u v. rewrite elem_of_pairs. symmetry. by apply edge_entry.
Qed.

(** X20: in an undirected graph built through the API,
    [remove_edge(u, v)] and [remove_edge(v, u)] give the same graph. *)
Theorem remove_edge_undirected_swap g u v :
  Built g → directed g = false → remove_edge g u v = remove_edge g v u.
Proof.
  intros Hb Hd. apply graph_ext.
  - done.
  - by rewrite !get_vertices_remove_edge.
  - rewrite get_vertices_remove_edge. apply (wf_keys g (Built_wf g Hb)).
  - intros w. rewrite !get_neighbors_remove_edge, Hd. cbv zeta.
    destruct (decide (u = v)) as [->|Hne]; [done|].
    destruct (decide (w = u)) as [->|Hwu].
    + by rewrite !(decide_False (P := u = v)) by done.
    + done.
Qed.

End mutation_facts.

(** * Further properties of the traversals *)

Section traversal_facts.
Context {V : Type} `{Countable V} `{!PyNone V}.
Implicit Types (g : Graph V) (u v w t : V).

(** ** Searching for a target stops a traversal early *)

Lemma bfs_loop_prefix g target fuel :
  ∀ visited queue result l,
    bfs_loop fuel g target visited queue result = Returns l →
    result `prefix_of` l.
Proof.
  induction fuel as [|fuel IH]; intros visited [|v queue] result l;
    cbn [bfs_loop]; try done; try by intros [= <-].
  case_decide; [apply IH|].
  case_decide; [intros [= <-]; by apply prefix_app_r|].
  destruct (subscript _ v); outcome_simpl; [|done..].
  intros Hr%IH. by eapply prefix_app_l.
Qed.

Lemma dfs_loop_prefix g target fuel :
  ∀ visited stack result l,
    dfs_loop fuel g target visited stack result = Returns l →
    result `prefix_of` l.
Proof.
  induction fuel as [|fuel IH]; intros visited [|v stack] result l;
    cbn [dfs_loop]; try done; try by intros [= <-].
  case_decide; [apply IH|].
  case_decide; [intros [= <-]; by apply prefix_app_r|].
  destruct (subscript _ v); outcome_simpl; [|done..].
  intros Hr%IH. by eapply prefix_app_l.
Qed.

(** The run with a target follows the run without one until it visits the
    target. *)
Lemma bfs_loop_target g t fuel :
  ∀ visited queue result l0,
    t ∉ result →
    bfs_loop fuel g None visited queue result = Returns l0 →
    ∃ l, bfs_loop fuel g (Some t) visited queue result = Returns l ∧
         l `prefix_of` l0 ∧ (t ∈ l0 → last l = Some t) ∧ (t ∉ l0 → l = l0).
Proof.
  induction fuel as [|fuel IH]; intros visited [|v queue] result l0 Ht;
    cbn [bfs_loop]; try done;
    try (intros [= <-]; exists result; by split_and!).
  case_decide; [by apply IH|].
  rewrite decide_False by done.
  destruct (decide (Some t = Some v)) as [[= ->]|Hne].
  - destruct (subscript _ v); outcome_simpl; [|done..].
    intros Hpre%bfs_loop_prefix. exists (result ++ [v]).
    split_and!; [done..|by rewrite last_snoc|].
    intros Hx. destruct Hx. destruct Hpre as [k ->]. set_solver.
  - destruct (subscript _ v); outcome_simpl; [|done..].
    apply IH. set_solver.
Qed.

Lemma dfs_loop_target g t fuel :
  ∀ visited stack result l0,
    t ∉ result →
    dfs_loop fuel g None visited stack result = Returns l0 →
    ∃ l, dfs_loop fuel g (Some t) visited stack result = Returns l ∧
         l `prefix_of` l0 ∧ (t ∈ l0 → last l = Some t) ∧ (t ∉ l0 → l = l0).
Proof.
  induction fuel as [|fuel IH]; intros visited [|v stack] result l0 Ht;
    cbn [dfs_loop]; try done;
    try (intros [= <-]; exists result; by split_and!).
  case_decide; [by apply IH|].
  rewrite decide_False by done.
  destruct (decide (Some t = Some v)) as [[= ->]|Hne].
  - destruct (subscript _ v); outcome_simpl; [|done..].
    intros Hpre%dfs_loop_prefix. exists (result ++ [v]).
    split_and!; [done..|by rewrite last_snoc|].
    intros Hx. destruct Hx. destruct Hpre as [k ->]. set_solver.
  - destruct (subscript _ v); outcome_simpl; [|done..].
    apply IH. set_solver.
Qed.

Lemma bfs_head g start target l :
  has_vertex g start = true → bfs g start target = Returns l →
  head l = Some start.
Proof.
  unfold bfs, has_vertex, loop_bound. intros ->. cbn [bfs_loop].
  rewrite decide_False by set_solver.
  case_decide; [by intros [= <-]|].
  destruct (subscript _ start); outcome_simpl; [|done..].
  by intros [k ->]%bfs_loop_prefix.
Qed.

Lemma dfs_head g start target l :
  has_vertex g start = true → dfs g start target = Returns l →
  head l = Some start.
Proof.
  unfold dfs, has_vertex, loop_bound. intros ->. cbn [dfs_loop].
  rewrite decide_False by set_solver.
  case_decide; [by intros [= <-]|].
  destruct (subscript _ start); outcome_simpl; [|done..].
  by intros [k ->]%dfs_loop_prefix.
Qed.

(** X13: [bfs(start, target)] is a prefix of [bfs(start)] and begins with
    [start]; it ends with [target] when [target] can be reached, and is the
    whole of [bfs(start)] when it cannot. *)
Theorem bfs_with_target g start t :
  Built g → has_vertex g start = true →
  ∃ l l0, bfs g start (Some t) = Returns l ∧ bfs g start None = Returns l0 ∧
          l `prefix_of` l0 ∧ head l = Some start ∧
          (rtc (edge g) start t → last l = Some t) ∧
          (¬ rtc (edge g) start t → l = l0).
Proof.
  intros Hb Hs. pose proof (Built_wf g Hb) as Hwf.
  destruct (bfs_loop_spec g start Hwf Hs (loop_bound g) ∅ [start] [])
    as (l0 & Hl0 & _ & Hreach).
  { cbn [length]. apply unvisited_degree_empty. }
  { split; [apply NoDup_nil_2|set_solver..]. }
  destruct (bfs_loop_target g t _ _ _ _ _ (not_elem_of_nil t) Hl0)
    as (l & Hl & Hpre & Hin & Hout).
  assert (Hbt : bfs g start (Some t) = Returns l).
  { unfold bfs. unfold has_vertex in Hs. by rewrite Hs. }
  exists l, l0. split_and!; [done| |done| | |].
  - unfold bfs. unfold has_vertex in Hs. by rewrite Hs.
  - by eapply bfs_head.
  - intros Hr. by apply Hin, Hreach.
  - intros Hr. apply Hout. by rewrite Hreach.
Qed.

(** ** Depth-first traversal visits what can be reached *)

Lemma elem_of_push_unvisited_iff (X : gset V) ns stack v :
  v ∈ push_unvisited X ns stack ↔ v ∈ stack ∨ (v ∈ ns ∧ v ∉ X).
Proof.
  revert stack. induction ns as [|n ns IH]; intros stack; cbn [push_unvisited].
  - rewrite elem_of_nil. naive_solver.
  - case_decide; rewrite IH; set_solver.
Qed.

Lemma dfs_loop_spec g start :
  wf_graph g → has_vertex g start = true →
  ∀ fuel visited stack result,
    length stack + unvisited_degree visited (adjacency_list g) ≤ fuel →
    bfs_inv g start visited stack result →
    ∃ l, dfs_loop fuel g None visited stack result = Returns l ∧
         NoDup l ∧ ∀ v, v ∈ l ↔ rtc (edge g) start v.
Proof.
  intros Hwf Hs fuel.
  induction fuel as [|fuel IH]; intros visited stack result Hfuel Hinv;
    destruct stack as [|vertex stack]; simpl in Hfuel; try lia.
  1,2: by (exists result; split; [done|]; eapply bfs_inv_final).
  cbn [dfs_loop]. destruct (decide (vertex ∈ visited)) as [Hvis|Hvis].
  - apply IH; [lia|]. destruct Hinv as [I1 I2 I3 I4 I5 I6]. split; auto.
    + intros v Hv. apply I4. by right.
    + intros u v Hu Huv. destruct (I5 u v Hu Huv) as [|[->|]%elem_of_cons]; auto.
    + destruct I6 as [|[->|]%elem_of_cons]; auto.
  - rewrite decide_False by done.
    destruct Hinv as [I1 I2 I3 I4 I5 I6].
    assert (Hreach : rtc (edge g) start vertex) by (apply I4; left).
    destruct (has_vertex_subscript g vertex) as [ns Hns];
      [by eapply reachable_has_vertex|].
    unfold subscript. rewrite Hns. outcome_simpl.
    apply IH.
    + pose proof (length_push_unvisited ({[vertex]} ∪ visited) (reverse ns) stack) as Hl.
      rewrite length_reverse in Hl.
      pose proof (unvisited_degree_visit _ visited vertex ns Hvis Hns). lia.
    + split.
      * apply NoDup_app. split_and!; [done| |apply NoDup_singleton].
        intros x Hx ->%list_elem_of_singleton. by apply Hvis, I2.
      * intros v. rewrite elem_of_app, list_elem_of_singleton, I2. set_solver.
      * intros v [->%elem_of_singleton|Hv]%elem_of_union; auto.
      * intros v [Hv|[Hv _]]%elem_of_push_unvisited_iff; [apply I4; by right|].
        rewrite elem_of_reverse in Hv. eapply rtc_r; [done|].
        apply edge_neighbors. by rewrite (neighbors_subscript g vertex ns).
      * intros u v Hu Huv. rewrite elem_of_push_unvisited_iff, elem_of_reverse.
        destruct (decide (v ∈ {[vertex]} ∪ visited)) as [|Hnv]; [by left|right].
        apply elem_of_union in Hu as [->%elem_of_singleton|Hu].
        -- right. split; [|done]. apply edge_neighbors in Huv.
           by rewrite (neighbors_subscript g vertex ns) in Huv.
        -- destruct (I5 u v Hu Huv) as [|[->|]%elem_of_cons]; [set_solver|set_solver|].
           by left.
      * destruct I6 as [|[->|]%elem_of_cons]; [set_solver|set_solver|].
        right. apply elem_of_push_unvisited_iff. by left.
Qed.

(** The two depth-first variants agree on every well-formed graph. *)
Lemma dfs_variants_agree g start (target : option V) :
  wf_graph g →
  ∃ l, dfs g start target = Returns l ∧ dfs_recursive g start target = Returns l.
Proof.
  intros Hwf. unfold dfs, dfs_recursive.
  destruct (dict_in start (adjacency_list g)) eqn:Hs; [|by eauto].
  destruct (dfs_helper_returns g target Hwf (loop_bound g) start (∅, []))
    as (b & [X res] & Hrec); [done| |].
  { cbn [fst]. pose proof (unvisited_count_le (adjacency_list g) ∅).
    unfold loop_bound. lia. }
  destruct (dfs_loop_returns g target Hwf (loop_bound g) ∅ [start] [])
    as (l & Hit).
  { by intros v ->%list_elem_of_singleton. }
  { cbn [length]. apply unvisited_degree_empty. }
  exists l. split; [done|]. rewrite Hrec. outcome_simpl. f_equal.
  destruct (dfs_helper_sim _ _ _ _ _ _ _ Hrec) as (k & Hk).
  specialize (Hk (loop_bound g) []). cbn [fst snd] in Hk.
  rewrite (dfs_loop_fuel g target k _ _ _ _ _ Hit) in Hk.
  destruct b; [congruence|].
  destruct (loop_bound g); cbn [dfs_loop] in Hk; congruence.
Qed.

(** X14: with no target, [dfs(start)] and [dfs_recursive(start)] return
    the vertices reachable from [start], each once, so their result is a
    permutation of the result of [bfs(start)]. *)
Theorem traversals_agree g start :
  Built g → has_vertex g start = true →
  ∃ lb ld, bfs g start None = Returns lb ∧ dfs g start None = Returns ld ∧
           dfs_recursive g start None = Returns ld ∧
           NoDup ld ∧ (∀ v, v ∈ ld ↔ rtc (edge g) start v) ∧ lb ≡ₚ ld.
Proof.
  intros Hb Hs. pose proof (Built_wf g Hb) as Hwf.
  destruct (bfs_loop_spec g start Hwf Hs (loop_bound g) ∅ [start] [])
    as (lb & Hlb & Hndb & Hrb).
  { cbn [length]. apply unvisited_degree_empty. }
  { split; [apply NoDup_nil_2|set_solver..]. }
  destruct (dfs_loop_spec g start Hwf Hs (loop_bound g) ∅ [start] [])
    as (ld & Hld & Hndd & Hrd).
  { cbn [length]. apply unvisited_degree_empty. }
  { split; [apply NoDup_nil_2|set_solver..]. }
  assert (Hd : dfs g start None = Returns ld).
  { unfold dfs. unfold has_vertex in Hs. by rewrite Hs. }
  destruct (dfs_variants_agree g start None Hwf) as (l & Hl1 & Hl2).
  rewrite Hd in Hl1. injection Hl1 as <-.
  exists lb, ld. split_and!; [|done..|].
  - unfold bfs. unfold has_vertex in Hs. by rewrite Hs.
  - apply NoDup_Permutation; [done..|]. intros v. by rewrite Hrb, Hrd.
Qed.

(** X15: [dfs(start, target)] and [dfs_recursive(start, target)] return the
    same prefix of [dfs(start)]; it begins with [start], ends with [target]
    when [target] can be reached, and is the whole of [dfs(start)] when it
    cannot. *)
Theorem dfs_with_target g start t :
  Built g → has_vertex g start = true →
  ∃ l l0, dfs g start (Some t) = Returns l ∧
          dfs_recursive g start (Some t) = Returns l ∧
          dfs g start None = Returns l0 ∧
          l `prefix_of` l0 ∧ head l = Some start ∧
          (rtc (edge g) start t → last l = Some t) ∧
          (¬ rtc (edge g) start t → l = l0).
Proof.
  intros Hb Hs. pose proof (Built_wf g Hb) as Hwf.
  destruct (dfs_loop_spec g start Hwf Hs (loop_bound g) ∅ [start] [])
    as (l0 & Hl0 & _ & Hreach).
  { cbn [length]. apply unvisited_degree_empty. }
  { split; [apply NoDup_nil_2|set_solver..]. }
  destruct (dfs_loop_target g t _ _ _ _ _ (not_elem_of_nil t) Hl0)
    as (l & Hl & Hpre & Hin & Hout).
  assert (Hdt : dfs g start (Some t) = Returns l).
  { unfold dfs. unfold has_vertex in Hs. by rewrite Hs. }
  destruct (dfs_variants_agree g start (Some t) Hwf) as (l' & Hl1 & Hl2).
  rewrite Hdt in Hl1. injection Hl1 as <-.
  exists l, l0. split_and!; [done..| |done| | |].
  - unfold dfs. unfold has_vertex in Hs. by rewrite Hs.
  - by eapply dfs_head.
  - intros Hr. by apply Hin, Hreach.
  - intros Hr. apply Hout. by rewrite Hreach.
Qed.

(** ** The order of a breadth-first traversal *)

Lemma enqueue_unvisited_filter (X : gset V) ns queue :
  enqueue_unvisited X ns queue = queue ++ filter (λ n, n ∉ X) ns.
Proof.
  revert queue. induction ns as [|n ns IH]; intros queue; cbn [enqueue_unvisited].
  - by rewrite app_nil_r.
  - rewrite filter_cons. destruct (decide (n ∈ X)).
    + rewrite decide_False by auto. apply IH.
    + rewrite decide_True by done. by rewrite IH, <-app_assoc.
Qed.

(** Unvisited, distinct vertices at the front of the queue are visited
    next, in their order. *)
Lemma bfs_loop_front g (q1 : list V) :
  ∀ fuel visited q2 result l,
    NoDup q1 → (∀ v, v ∈ q1 → v ∉ visited) →
    bfs_loop fuel g None visited (q1 ++ q2) result = Returns l →
    (result ++ q1) `prefix_of` l.
Proof.
  induction q1 as [|a q1 IH]; intros fuel visited q2 result l Hnd Hvis Hr.
  - rewrite app_nil_r. by eapply bfs_loop_prefix.
  - apply NoDup_cons in Hnd as [Ha Hnd].
    destruct fuel as [|fuel]; [done|]. cbn [app bfs_loop] in Hr.
    rewrite decide_False in Hr by (apply Hvis; left).
    rewrite decide_False in Hr by done.
    destruct (subscript (adjacency_list g) a) as [ns| |];
      cbn [mbind outcome_mbind outcome_bind] in Hr; [|done..].
    rewrite enqueue_unvisited_filter, <-app_assoc in Hr.
    apply IH in Hr; [|done|].
    + by rewrite <-app_assoc in Hr.
    + intros v Hv [->%elem_of_singleton|Hx]%elem_of_union; [done|].
      apply (Hvis v); [by right|done].
Qed.

(** X16: [bfs(start)] begins with [start], followed by the neighbours of
    [start] other than itself, in their stored order. *)
Theorem bfs_first_layer g start :
  Built g → has_vertex g start = true →
  ∃ rest, bfs g start None =
          Returns (start :: filter (λ n, n ≠ start) (get_neighbors g start) ++ rest).
Proof.
  intros Hb Hs. pose proof (Built_wf g Hb) as Hwf.
  destruct (bfs_loop_spec g start Hwf Hs (loop_bound g) ∅ [start] [])
    as (l & Hl & _ & _).
  { cbn [length]. apply unvisited_degree_empty. }
  { split; [apply NoDup_nil_2|set_solver..]. }
  unfold bfs. unfold has_vertex in Hs. rewrite Hs, Hl.
  unfold loop_bound in Hl. cbn [bfs_loop] in Hl.
  rewrite decide_False in Hl by set_solver.
  rewrite decide_False in Hl by done.
  destruct (has_vertex_subscript g start Hs) as [ns Hns].
  unfold subscript in Hl. rewrite Hns in Hl.
  cbn [mbind outcome_mbind outcome_bind] in Hl.
  rewrite enqueue_unvisited_filter in Hl. cbn [app] in Hl.
  rewrite <-(app_nil_r (filter _ ns)) in Hl.
  apply bfs_loop_front in Hl as [rest ->].
  - exists rest. rewrite (neighbors_subscript g start ns Hns). cbn [app].
    do 3 f_equal. apply list_filter_iff. set_solver.
  - apply NoDup_filter. rewrite <-(neighbors_subscript g start ns Hns).
    apply (wf_nodup g Hwf).
  - by intros v [? _]%list_elem_of_filter.
Qed.

(** ** More on [bfs_path] *)

Lemma is_path_rtc g s t p : is_path g s t p → rtc (edge g) s t.
Proof. intros Hp%is_path_nsteps. by eapply rtc_nsteps_2. Qed.

(** *** [bfs_path] against the search in which no vertex is [None]

    The two searches visit and enqueue the same vertices.  Their parent maps
    differ by [collapse_None], and the climb of [bfs_path] is the climb of
    the other search cut at its first vertex that is [None]. *)

Lemma cut_at_None_prefix (l : list V) : cut_at_None l `prefix_of` l.
Proof.
  induction l as [|v l IH]; cbn [cut_at_None]; [done|].
  destruct (is_None v); [apply prefix_nil | by apply prefix_cons].
Qed.

Lemma cut_reverse_suffix (p : list V) :
  reverse (cut_at_None (reverse p)) `suffix_of` p.
Proof.
  rewrite <-(reverse_involutive p) at 2.
  apply prefix_suffix_reverse, cut_at_None_prefix.
Qed.

Lemma walk_parents_cut (parent0 : gmap V (option V)) fuel :
  ∀ current0 path0 path r0,
    walk_parents fuel parent0 current0 path0 = Returns r0 →
    ∃ up0, r0 = path0 ++ up0 ∧
      walk_parents fuel (collapse_None <$> parent0) (collapse_None current0) path
      = Returns (path ++ cut_at_None up0).
Proof.
  induction fuel as [|fuel IH]; intros [c|] path0 path r0;
    cbn [walk_parents]; try done;
    try (intros [= <-]; exists []; by rewrite !app_nil_r).
  destruct (parent0 !! c) as [next|] eqn:E; [|done]. intros Hr.
  destruct (IH _ _ (path ++ [c]) _ Hr) as (up & -> & Hw).
  exists (c :: up). split; [by rewrite <-app_assoc|].
  change (collapse_None (Some c)) with (py_value c). unfold py_value.
  cbn [cut_at_None]. destruct (is_None c).
  - destruct fuel; cbn [walk_parents]; by rewrite app_nil_r.
  - cbn [walk_parents]. rewrite lookup_fmap, E. cbn [fmap option_fmap option_map].
    by rewrite Hw, <-app_assoc.
Qed.

Lemma bfs_path_scan_cut target vertex ns :
  ∀ visited queue (parent0 : gmap V (option V)) r0,
    @bfs_path_scan V _ _ no_None target vertex ns (visited, queue, parent0)
      = Returns r0 →
    bfs_path_scan target vertex ns (visited, queue, collapse_None <$> parent0)
      = Returns match r0 with
                | inl p0 => inl (reverse (cut_at_None (reverse p0)))
                | inr st0 => inr (st0.1, collapse_None <$> st0.2)
                end.
Proof.
  induction ns as [|n ns IH]; intros visited queue parent0 r0;
    cbn [bfs_path_scan fst snd].
  { by intros [= <-]. }
  destruct (decide (n ∈ visited)); [apply IH|].
  change (@py_value V no_None vertex) with (Some vertex).
  change (@py_value V no_None n) with (Some n).
  change (py_value vertex) with (collapse_None (Some vertex)).
  change (py_value n) with (collapse_None (Some n)).
  rewrite <-fmap_insert, map_size_fmap.
  destruct (decide (n = target)) as [->|Hne].
  - destruct (walk_parents (size (<[target:=Some vertex]> parent0))
                (<[target:=Some vertex]> parent0) (Some target) [])
      as [up| |] eqn:Hw; outcome_simpl; [|done..].
    intros [= <-].
    destruct (walk_parents_cut _ _ _ _ [] _ Hw) as (up0 & -> & Hreal).
    rewrite Hreal. outcome_simpl. cbn [app]. by rewrite reverse_involutive.
  - apply IH.
Qed.

Lemma bfs_path_loop_cut g target fuel :
  ∀ visited queue (parent0 : gmap V (option V)) r0,
    @bfs_path_loop V _ _ no_None fuel g target (visited, queue, parent0)
      = Returns r0 →
    bfs_path_loop fuel g target (visited, queue, collapse_None <$> parent0)
      = Returns ((λ p0, reverse (cut_at_None (reverse p0))) <$> r0).
Proof.
  induction fuel as [|fuel IH]; intros visited [|u queue] parent0 r0;
    cbn [bfs_path_loop fst snd]; try done; try by intros [= <-].
  destruct (subscript (adjacency_list g) u) as [ns| |]; outcome_simpl; [|done..].
  destruct (@bfs_path_scan V _ _ no_None target u ns (visited, queue, parent0))
    as [r| |] eqn:Hs; outcome_simpl; [|done..].
  rewrite (bfs_path_scan_cut _ _ _ _ _ _ _ Hs). outcome_simpl.
  destruct r as [p0|[[X' Q'] P0']]; [by intros [= <-]|]. apply IH.
Qed.

(** What [bfs_path] returns is what the other search returns, cut down to a
    suffix of it. *)
Lemma bfs_path_cut g start target r0 :
  @bfs_path V _ _ no_None g start target = Returns r0 →
  ∃ r, bfs_path g start target = Returns r ∧
       match r0 with
       | None => r = None
       | Some p0 => ∃ p, r = Some p ∧ p `suffix_of` p0
       end.
Proof.
  unfold bfs_path.
  destruct (negb _ || negb _); [intros [= <-]; by exists None|].
  destruct (decide (start = target)); [intros [= <-]; by eauto|].
  intros Hr%bfs_path_loop_cut. rewrite map_fmap_singleton in Hr.
  change (collapse_None None) with (@None V) in Hr. rewrite Hr.
  eexists. split; [done|]. destruct r0 as [p0|]; [|done].
  eexists. split; [done|]. apply cut_reverse_suffix.
Qed.

(** X17: for two vertices of a graph built through the API, [bfs_path]
    returns [None] exactly when the target cannot be reached from the
    start. *)
Theorem bfs_path_none_iff g start target :
  Built g → has_vertex g start = true → has_vertex g target = true →
  bfs_path g start target = Returns None ↔ ¬ rtc (edge g) start target.
Proof.
  intros Hb Hs Ht.
  destruct (@bfs_path_spec V _ _ no_None g start target (Built_wf g Hb)
              (λ _ _, eq_refl)) as (r0 & Hr0 & Hspec).
  destruct (bfs_path_cut g start target r0 Hr0) as (r & Hr & Hcut).
  rewrite Hr. destruct r0 as [p0|].
  - destruct Hcut as (p & -> & _). destruct Hspec as [Hp%is_path_rtc _].
    split; [done|]. intros Hn. by destruct Hn.
  - subst r. split; [|done]. intros _.
    destruct Hspec as [?|[?|?]]; [congruence..|done].
Qed.

Lemma chain_tail g a (l : list V) : chain g (a :: l) → chain g l.
Proof. destruct l; [done|]. by intros [_ ?]. Qed.

Lemma chain_app_r g (l1 l2 : list V) : chain g (l1 ++ l2) → chain g l2.
Proof.
  induction l1 as [|a l1 IH]; [done|]. intros Hc%chain_tail. auto.
Qed.

(** A path with the least number of vertices visits no vertex twice. *)
Lemma shortest_path_simple g t (p : list V) :
  ∀ s, is_path g s t p →
       (∀ q, is_path g s t q → length p ≤ length q) → NoDup p.
Proof.
  induction p as [|a p IH]; intros s (Hh & Hl & Hc) Hmin; [apply NoDup_nil_2|].
  injection Hh as <-. apply NoDup_cons. split.
  - intros (l2 & l3 & ->)%list_elem_of_split.
    assert (Hq : is_path g a t (a :: l3)).
    { split_and!; [done| |].
      - change (a :: l2 ++ a :: l3) with ((a :: l2) ++ a :: l3) in Hl.
        by rewrite last_app_cons in Hl.
      - by apply (chain_app_r g (a :: l2)). }
    apply Hmin in Hq. cbn [length] in Hq. rewrite length_app in Hq.
    cbn [length] in Hq. lia.
  - destruct p as [|b p]; [apply NoDup_nil_2|].
    destruct Hc as [Hab Hc]. rewrite last_cons_cons in Hl.
    apply (IH b); [done|].
    intros q (Hqh & Hql & Hqc).
    destruct q as [|b' q]; [done|]. injection Hqh as ->.
    assert (Ha : is_path g a t (a :: b :: q)).
    { split_and!; [done|by rewrite last_cons_cons|by split]. }
    apply Hmin in Ha. cbn [length] in *. lia.
Qed.

(** X18: a path returned by [bfs_path] visits no vertex twice. *)
Theorem bfs_path_simple g start target p :
  Built g → bfs_path g start target = Returns (Some p) → NoDup p.
Proof.
  intros Hb Hp.
  destruct (@bfs_path_spec V _ _ no_None g start target (Built_wf g Hb)
              (λ _ _, eq_refl)) as (r0 & Hr0 & Hspec).
  destruct (bfs_path_cut g start target r0 Hr0) as (r & Hr & Hcut).
  rewrite Hp in Hr. injection Hr as <-.
  destruct r0 as [p0|]; [|done]. destruct Hcut as (p' & [= <-] & Hsuf).
  destruct Hspec as [Hpath Hmin].
  assert (Hnd : NoDup p0); [|destruct Hsuf as [k ->]; by apply NoDup_app in Hnd as (_ & _ & ?)].
  apply (shortest_path_simple g target p0 start Hpath).
  intros q Hq. pose proof (is_path_nsteps g start target q Hq) as Hn.
  apply Hmin in Hn. destruct q as [|x q]; [by destruct Hq|].
  cbn [length] in *. lia.
Qed.

End traversal_facts.

(** * The order of a breadth-first traversal *)

Section bfs_order_facts.
Context {V : Type} `{Countable V}.
Implicit Types (g : Graph V) (u v w a : V).

Lemma bfs_level_normalise g start depth (k : nat) q2 visited result :
  bfs_level_inv g start depth k [] q2 visited result →
  bfs_level_inv g start depth (S k) q2 [] visited result.
Proof.
  intros [I1 I2 I3 I4 I5 I6 I7 I8]. split; try done.
  - intros v Hv. specialize (I4 v Hv). lia.
  - intros w Hw. by apply elem_of_nil in Hw.
  - intros u w Hu Huw. destruct (I7 u w Hu Huw) as [?|[(_ & Hw & _)|(? & ? & ?)]].
    + by left.
    + by apply elem_of_nil in Hw.
    + right. left. split_and!; [done..|lia].
  - destruct I8 as [?|(_ & Hs & _)]; [by left|]. by apply elem_of_nil in Hs.
Qed.

(** A walk of [n] edges ends at a vertex visited at a level of at most [n],
    or else the head of the queue is at a level of at most [n]. *)
Lemma bfs_level_walks g start depth (k : nat) q1 q2 visited result :
  bfs_level_inv g start depth k q1 q2 visited result →
  (q1 = [] → q2 = []) →
  ∀ (n : nat) x, nsteps (edge g) n start x →
    (x ∈ visited ∧ depth x ≤ n) ∨ ((x ∉ visited) ∧ q1 ≠ [] ∧ k ≤ n).
Proof.
  intros [I1 I2 I3 I4 I5 I6 I7 I8] Hnorm.
  assert (Hne : ∀ (l : list V) y, y ∈ l → l ≠ []).
  { intros l y Hy ->. by apply elem_of_nil in Hy. }
  induction n as [|n IH]; intros x Hn.
  - inversion Hn; subst.
    destruct I8 as [[? ?]|(? & ? & ?)]; [left; split; [done|lia]|right].
    split_and!; [done|by eapply Hne|lia].
  - apply nsteps_inv_r in Hn as (y & Hn & Hyx).
    destruct (IH y Hn) as [[Hy Hdy]|(Hy & Hq & Hk)].
    + destruct (I7 y x Hy Hyx) as [[? ?]|[(? & ? & ?)|(? & Hx & ?)]].
      * left. split; [done|lia].
      * right. split_and!; [done|by eapply Hne|lia].
      * right. split_and!; [done| |lia].
        intros Hq1. apply Hnorm in Hq1. subst q2. by apply elem_of_nil in Hx.
    + destruct (decide (x ∈ visited)) as [Hx|Hx].
      * left. split; [done|]. specialize (I4 x Hx). lia.
      * right. split_and!; [done..|lia].
Qed.

Lemma bfs_level_skip g start depth (k : nat) a q1 q2 visited result :
  bfs_level_inv g start depth k (a :: q1) q2 visited result →
  a ∈ visited →
  bfs_level_inv g start depth k q1 q2 visited result.
Proof.
  intros [I1 I2 I3 I4 I5 I6 I7 I8] Ha. split; try done.
  - intros w Hw. apply I5. by right.
  - intros u w Hu Huw.
    destruct (I7 u w Hu Huw) as [?|[(? & [->|?]%elem_of_cons & ?)|?]]; auto.
    done.
  - destruct I8 as [?|(? & [->|?]%elem_of_cons & ?)]; auto. done.
Qed.

Lemma bfs_level_visit g start depth (k : nat) a q1 q2 visited result ns :
  bfs_level_inv g start depth k (a :: q1) q2 visited result →
  a ∉ visited → dict_get (adjacency_list g) a = Some ns →
  bfs_level_inv g start (set_depth depth a k) k q1
    (q2 ++ filter (λ n, n ∉ {[a]} ∪ visited) ns)
    ({[a]} ∪ visited) (result ++ [a]).
Proof.
  intros [I1 I2 I3 I4 I5 I6 I7 I8] Ha Hns.
  assert (Hd : ∀ v, v ∈ visited → set_depth depth a k v = depth v).
  { intros v Hv. unfold set_depth. rewrite decide_False; [done|]. by intros ->. }
  assert (Hda : set_depth depth a k a = k).
  { unfold set_depth. by rewrite decide_True. }
  assert (Hd' : ∀ v, v ∈ {[a]} ∪ visited → set_depth depth a k v ≤ k).
  { intros v [->%elem_of_singleton|Hv]%elem_of_union; [lia|].
    rewrite (Hd v Hv). auto. }
  assert (Hwa : nsteps (edge g) k start a) by (apply I5; left).
  split.
  - intros v. rewrite elem_of_app, list_elem_of_singleton, I1. set_solver.
  - intros i j u v Hij Hu Hv.
    destruct (decide (j < length result)) as [Hj|Hj].
    + rewrite lookup_app_l in Hu, Hv by lia.
      rewrite (Hd u), (Hd v); [by apply (I2 i j)| |].
      * apply I1. by eapply list_elem_of_lookup_2.
      * apply I1. by eapply list_elem_of_lookup_2.
    + rewrite lookup_app_r in Hv by lia.
      destruct (j - length result) as [|?]; [|done]. injection Hv as <-.
      rewrite Hda. apply Hd'.
      apply list_elem_of_lookup_2 in Hu.
      apply elem_of_app in Hu as [Hu%I1|Hu%list_elem_of_singleton]; set_solver.
  - intros v [->%elem_of_singleton|Hv]%elem_of_union.
    + by rewrite Hda.
    + rewrite (Hd v Hv). auto.
  - done.
  - intros w Hw. apply I5. by right.
  - intros w [Hw|[_ Hw]%list_elem_of_filter]%elem_of_app; [auto|].
    eapply nsteps_r; [done|].
    apply edge_neighbors. by rewrite (neighbors_subscript g a ns).
  - intros u w Hu Huw. destruct (decide (w ∈ {[a]} ∪ visited)) as [Hw|Hw].
    + left. split; [done|].
      apply elem_of_union in Hu as [->%elem_of_singleton|Hu].
      * rewrite Hda. specialize (Hd' w Hw). lia.
      * rewrite (Hd u Hu).
        apply elem_of_union in Hw as [->%elem_of_singleton|Hw].
        -- rewrite Hda.
           destruct (I7 u a Hu Huw) as [[? ?]|[(? & ? & ?)|(? & ? & ?)]]; [done|lia..].
        -- rewrite (Hd w Hw).
           destruct (I7 u w Hu Huw) as [[? ?]|[(? & ? & ?)|(? & ? & ?)]]; done.
    + right. apply elem_of_union in Hu as [->%elem_of_singleton|Hu].
      * right. split_and!; [done| |done]. apply elem_of_app. right.
        apply list_elem_of_filter. split; [done|].
        apply edge_neighbors in Huw.
        by rewrite (neighbors_subscript g a ns) in Huw.
      * rewrite (Hd u Hu).
        destruct (I7 u w Hu Huw) as [[? ?]|[(? & Hq & ?)|(? & ? & ?)]].
        -- set_solver.
        -- left. split_and!; [done| |done].
           apply elem_of_cons in Hq as [->|?]; [set_solver|done].
        -- right. split_and!; [done| |done]. apply elem_of_app. by left.
  - destruct I8 as [[Hs ?]|(? & Hq & ?)].
    + left. split; [set_solver|]. by rewrite (Hd start Hs).
    + destruct (decide (start = a)) as [->|Hne].
      * left. split; [set_solver|]. rewrite Hda. done.
      * right. apply elem_of_cons in Hq as [?|Hq]; [done|].
        split_and!; [set_solver|done..].
Qed.

Lemma bfs_level_continue g start depth (k : nat) q1 q2 visited result :
  bfs_level_inv g start depth k q1 q2 visited result →
  ∃ (k' : nat) q1' q2',
    q1 ++ q2 = q1' ++ q2' ∧ (q1' = [] → q2' = []) ∧
    bfs_level_inv g start depth k' q1' q2' visited result.
Proof.
  intros Hinv. destruct q1 as [|a q1].
  - exists (S k), q2, []. rewrite app_nil_r.
    split_and!; [done..|]. by apply bfs_level_normalise.
  - exists k, (a :: q1), q2. by split_and!.
Qed.

Lemma bfs_level_final g start depth (k : nat) visited result :
  bfs_level_inv g start depth k [] [] visited result →
  ∀ (i j : nat) u v,
    i ≤ j → result !! i = Some u → result !! j = Some v →
    ∀ n : nat, nsteps (edge g) n start v →
               ∃ m : nat, m ≤ n ∧ nsteps (edge g) m start u.
Proof.
  intros Hinv i j u v Hij Hu Hv n Hn.
  pose proof (bfs_level_walks _ _ _ _ _ _ _ _ Hinv (λ _, eq_refl) n v Hn) as Hw.
  destruct Hinv as [I1 I2 I3 I4 I5 I6 I7 I8].
  assert (Hvv : v ∈ visited) by (apply I1; by eapply list_elem_of_lookup_2).
  assert (Huv : u ∈ visited) by (apply I1; by eapply list_elem_of_lookup_2).
  destruct Hw as [[_ Hdv]|(? & _)]; [|done].
  exists (depth u). split; [|by apply I3].
  specialize (I2 i j u v Hij Hu Hv). lia.
Qed.

Lemma bfs_level_loop g start :
  wf_graph g → has_vertex g start = true →
  ∀ fuel depth (k : nat) q1 q2 visited result,
    bfs_level_inv g start depth k q1 q2 visited result →
    (q1 = [] → q2 = []) →
    length (q1 ++ q2) + unvisited_degree visited (adjacency_list g) ≤ fuel →
    ∃ l, bfs_loop fuel g None visited (q1 ++ q2) result = Returns l ∧
      ∀ (i j : nat) u v,
        i ≤ j → l !! i = Some u → l !! j = Some v →
        ∀ n : nat, nsteps (edge g) n start v →
                   ∃ m : nat, m ≤ n ∧ nsteps (edge g) m start u.
Proof.
  intros Hwf Hs fuel.
  induction fuel as [|fuel IH]; intros depth k q1 q2 visited result Hinv Hnorm Hfuel;
    destruct q1 as [|a q1]; cbn [app length] in Hfuel; try lia.
  1,2: (rewrite (Hnorm eq_refl) in *; exists result; split; [done|];
        by eapply bfs_level_final).
  cbn [app bfs_loop]. destruct (decide (a ∈ visited)) as [Ha|Ha].
  - destruct (bfs_level_continue _ _ _ _ _ _ _ _ (bfs_level_skip _ _ _ _ _ _ _ _ _ Hinv Ha))
      as (k' & q1' & q2' & Heq & Hnorm' & Hinv').
    rewrite Heq. apply (IH depth k'); [done..|]. rewrite <-Heq. lia.
  - rewrite decide_False by done.
    assert (Hva : has_vertex g a = true).
    { eapply reachable_has_vertex; [done..|].
      eapply rtc_nsteps_2, (lvl_q1 _ _ _ _ _ _ _ _ Hinv). left. }
    destruct (has_vertex_subscript g a Hva) as [ns Hns].
    unfold subscript. rewrite Hns. outcome_simpl.
    rewrite enqueue_unvisited_filter, <-app_assoc.
    destruct (bfs_level_continue _ _ _ _ _ _ _ _
                (bfs_level_visit _ _ _ _ _ _ _ _ _ _ Hinv Ha Hns))
      as (k' & q1' & q2' & Heq & Hnorm' & Hinv').
    rewrite Heq. apply (IH (set_depth depth a k) k'); [done..|]. rewrite <-Heq.
    pose proof (unvisited_degree_visit _ visited a ns Ha Hns).
    pose proof (length_filter (λ n, n ∉ {[a]} ∪ visited) ns).
    rewrite !length_app in *. lia.
Qed.

(** X19: [bfs(start)] lists the vertices by distance from [start]: a vertex
    is never farther from [start], in edges, than one listed after it. *)
Theorem bfs_distance_order g start :
  Built g → has_vertex g start = true →
  ∃ l, bfs g start None = Returns l ∧
    ∀ (i j : nat) u v,
      i ≤ j → l !! i = Some u → l !! j = Some v →
      ∀ n : nat, nsteps (edge g) n start v →
                 ∃ m : nat, m ≤ n ∧ nsteps (edge g) m start u.
Proof.
  intros Hb Hs. pose proof (Built_wf g Hb) as Hwf.
  unfold bfs. pose proof Hs as Hs'. unfold has_vertex in Hs'. rewrite Hs'.
  apply (bfs_level_loop g start Hwf Hs (loop_bound g) (λ _, 0) 0 [start] []).
  - split.
    + intros v. rewrite elem_of_nil. set_solver.
    + intros i j u v _ Hu. by rewrite lookup_nil in Hu.
    + set_solver.
    + set_solver.
    + intros w ->%list_elem_of_singleton. apply nsteps_O.
    + intros w Hw. by apply elem_of_nil in Hw.
    + set_solver.
    + right. split_and!; [set_solver|left|done].
  - done.
  - cbn [app length]. apply unvisited_degree_empty.
Qed.

End bfs_order_facts.

(** * The further theorems at concrete inputs *)

Lemma scenario3_Built : Built scenario3.
Proof. unfold scenario3. repeat apply Built_add_edge. apply Built_empty. Qed.

Lemma remove_edge_spec_witness :
  get_vertices (remove_edge scenario1 "A" "B") = get_vertices scenario1 ∧
  ∀ u w, has_edge (remove_edge scenario1 "A" "B") u w = true ↔
         has_edge scenario1 u w = true ∧ ¬ (u = "A" ∧ w = "B") ∧
         ¬ (directed scenario1 = false ∧ u = "B" ∧ w = "A").
Proof. apply (remove_edge_spec scenario1 "A" "B"). exact scenario1_Built. Defined.

Lemma remove_edge_missing_witness : remove_edge scenario1 "A" "F" = scenario1.
Proof.
  apply (remove_edge_missing scenario1 "A" "F").
  - exact scenario1_Built.
  - vm_compute. reflexivity.
Defined.

Lemma remove_edge_add_edge_witness :
  remove_edge (add_edge scenario1 "A" "F") "A" "F" = scenario1.
Proof.
  apply (remove_edge_add_edge scenario1 "A" "F").
  - exact scenario1_Built.
  - vm_compute. reflexivity.
  - vm_compute. reflexivity.
  - vm_compute. reflexivity.
Defined.

Lemma remove_vertex_keeps_rest_witness :
  get_vertices (remove_vertex scenario1 "B")
    = filter (λ u, u ≠ "B") (get_vertices scenario1) ∧
  ∀ u, u ≠ "B" →
    get_neighbors (remove_vertex scenario1 "B") u
      = filter (λ w, w ≠ "B") (get_neighbors scenario1 u).
Proof. apply (remove_vertex_keeps_rest scenario1 "B"). exact scenario1_Built. Defined.

Lemma remove_vertex_add_vertex_witness :
  remove_vertex (add_vertex scenario1 "Z") "Z" = scenario1.
Proof.
  apply (remove_vertex_add_vertex scenario1 "Z").
  - exact scenario1_Built.
  - vm_compute. reflexivity.
Defined.

Lemma edges_join_vertices_witness :
  NoDup (get_vertices scenario1) ∧
  ∀ u v, has_edge scenario1 u v = true →
         has_vertex scenario1 u = true ∧ has_vertex scenario1 v = true.
Proof. apply (edges_join_vertices scenario1). exact scenario1_Built. Defined.

Lemma add_edge_undirected_swap_witness :
  get_neighbors (add_edge scenario1 "A" "F") "F"
  = get_neighbors (add_edge scenario1 "F" "A") "F".
Proof.
  apply (add_edge_undirected_swap scenario1 "A" "F"). vm_compute. reflexivity.
Defined.

Lemma remove_edge_undirected_swap_witness :
  remove_edge scenario1 "A" "B" = remove_edge scenario1 "B" "A".
Proof.
  apply (remove_edge_undirected_swap scenario1 "A" "B").
  - exact scenario1_Built.
  - vm_compute. reflexivity.
Defined.

Lemma get_edges_directed_witness :
  get_edges scenario3 = (adjacency_list scenario3 ≫= λ e, pair e.1 <$> e.2) ∧
  NoDup (get_edges scenario3) ∧
  ∀ u v, (u, v) ∈ get_edges scenario3 ↔ has_edge scenario3 u v = true.
Proof.
  apply (get_edges_directed scenario3).
  - exact scenario3_Built.
  - vm_compute. reflexivity.
Defined.

Lemma bfs_with_target_witness :
  ∃ l l0, bfs scenario1 "A" (Some "E") = Returns l ∧
          bfs scenario1 "A" None = Returns l0 ∧
          l `prefix_of` l0 ∧ head l = Some "A" ∧
          (rtc (edge scenario1) "A" "E" → last l = Some "E") ∧
          (¬ rtc (edge scenario1) "A" "E" → l = l0).
Proof.
  apply (bfs_with_target scenario1 "A" "E").
  - exact scenario1_Built.
  - vm_compute. reflexivity.
Defined.

Lemma traversals_agree_witness :
  ∃ lb ld, bfs scenario1 "A" None = Returns lb ∧
           dfs scenario1 "A" None = Returns ld ∧
           dfs_recursive scenario1 "A" None = Returns ld ∧
           NoDup ld ∧ (∀ v, v ∈ ld ↔ rtc (edge scenario1) "A" v) ∧ lb ≡ₚ ld.
Proof.
  apply (traversals_agree scenario1 "A").
  - exact scenario1_Built.
  - vm_compute. reflexivity.
Defined.

Lemma dfs_with_target_witness :
  ∃ l l0, dfs scenario1 "A" (Some "E") = Returns l ∧
          dfs_recursive scenario1 "A" (Some "E") = Returns l ∧
          dfs scenario1 "A" None = Returns l0 ∧
          l `prefix_of` l0 ∧ head l = Some "A" ∧
          (rtc (edge scenario1) "A" "E" → last l = Some "E") ∧
          (¬ rtc (edge scenario1) "A" "E" → l = l0).
Proof.
  apply (dfs_with_target scenario1 "A" "E").
  - exact scenario1_Built.
  - vm_compute. reflexivity.
Defined.

Lemma bfs_first_layer_witness :
  ∃ rest, bfs scenario1 "A" None =
          Returns ("A" :: filter (λ n, n ≠ "A") (get_neighbors scenario1 "A") ++ rest).
Proof.
  apply (bfs_first_layer scenario1 "A").
  - exact scenario1_Built.
  - vm_compute. reflexivity.
Defined.

Lemma bfs_path_none_iff_witness :
  bfs_path scenario3 "E" "A" = Returns None ↔ ¬ rtc (edge scenario3) "E" "A".
Proof.
  apply (bfs_path_none_iff scenario3 "E" "A").
  - exact scenario3_Built.
  - vm_compute. reflexivity.
  - vm_compute. reflexivity.
Defined.

Lemma bfs_path_simple_witness : NoDup ["A"; "C"; "F"].
Proof.
  apply (bfs_path_simple scenario1 "A" "F" ["A"; "C"; "F"]).
  - exact scenario1_Built.
  - vm_compute. reflexivity.
Defined.

Lemma bfs_distance_order_witness :
  ∃ l, bfs scenario1 "A" None = Returns l ∧
    ∀ (i j : nat) u v,
      i ≤ j → l !! i = Some u → l !! j = Some v →
      ∀ n : nat, nsteps (edge scenario1) n "A" v →
                 ∃ m : nat, m ≤ n ∧ nsteps (edge scenario1) m "A" u.
Proof.
  apply (bfs_distance_order scenario1 "A").
  - exact scenario1_Built.
  - vm_compute. reflexivity.
Defined.
